(** * The WP1 work-engine prototype (prototype.py)

    A shallow embedding of [perform_work], of the [ENGINES] table and of the
    way the main block drives them through [MPIPoolExecutor.map], together
    with the properties the design document states about them. *)

From stdpp Require Import gmap strings list fin_maps pretty.

Open Scope string_scope.
Open Scope nat_scope.

(** * Definitions *)

(** ** Python values

    A work-list entry is a [dict[str, str]].  Python dicts are objects:
    [perform_work] receives a reference, so dicts live in a heap and are
    named by locations.  Characters are Rocq's [ascii]. *)

Abbreviation dict := (gmap string string).
Abbreviation loc := nat (only parsing).

(** Exceptions the program can raise.  [KeyError k] is what a dict raises on
    a missing key [k]; [EngineFault] stands for whatever an engine behaviour
    raises on its own.  [BadRef] is no Python exception: it marks a location
    that names no object, which no Python program can hold. *)
Inductive exn : Type :=
| KeyError (key : string)
| EngineFault (msg : string)
| BadRef.

Global Instance exn_eq_dec : EqDecision exn.
Proof. solve_decision. Defined.

(** What the process owns: the dict objects and the lines written with
    [tqdm.write]. *)
Record state : Type := State {
  heap : gmap loc dict;
  log : list string
}.

(** A computation changes the state and either raises or returns; a raise
    keeps the effects made before it. *)
Definition M (A : Type) : Type := state → (exn + A) * state.

Global Instance M_ret : MRet M := λ A a σ, (inr a, σ).

Global Instance M_bind : MBind M := λ A B f m σ,
  match m σ with
  | (inl x, σ') => (inl x, σ')
  | (inr a, σ') => f a σ'
  end.

Definition raise {A : Type} (x : exn) : M A := λ σ, (inl x, σ).

(** [d[k]] on the dict at [l]. *)
Definition getitem (l : loc) (k : string) : M string := λ σ,
  match heap σ !! l with
  | None => (inl BadRef, σ)
  | Some d =>
      match d !! k with
      | None => (inl (KeyError k), σ)
      | Some v => (inr v, σ)
      end
  end.

(** [d.update({k: v})] on the dict at [l]: the object itself is changed. *)
Definition dict_update (l : loc) (k v : string) : M unit := λ σ,
  match heap σ !! l with
  | None => (inl BadRef, σ)
  | Some d => (inr (), State (<[l := <[k := v]> d]> (heap σ)) (log σ))
  end.

(** [tqdm.write(line)]. *)
Definition tqdm_write (line : string) : M unit := λ σ,
  (inr (), State (heap σ) (log σ ++ [line])).

(** ** The worker's identity

    [get_comm_workers().Get_rank()], [.Get_size()] and
    [MPI.Get_processor_name()] read the ambient MPI context of the process
    that runs the task. *)
Record worker : Type := Worker {
  Get_rank : nat;
  Get_size : nat;
  Get_processor_name : string
}.

(** ** Format specifications of the trace line *)

Fixpoint spaces (n : nat) : string :=
  match n with
  | O => ""
  | S n => String Ascii.Space (spaces n)
  end.

(** [f"{s:>width}"]: pad on the left up to [width], never truncate.  The
    same layout is the default for an [int] with a bare width. *)
Definition rjust (width : nat) (s : string) : string :=
  spaces (width - String.length s) +:+ s.

(** The f-string of [perform_work]:
    [f"{benchmark:>4} {engine:>10} {rank:3} of {size:3} {name}"]. *)
Definition trace_line (benchmark engine : string) (rank size : nat)
    (name : string) : string :=
  rjust 4 benchmark +:+ " " +:+ rjust 10 engine +:+ " " +:+
  rjust 3 (pretty rank) +:+ " of " +:+ rjust 3 (pretty size) +:+ " " +:+ name.

(** ** Engines

    An engine behaviour takes the benchmark identifier and returns a value
    or raises. *)
Abbreviation engine := (string → exn + string)%type.

(** The three engines sleep for [random.random() * 5] seconds and return the
    same constant; the sleep only decides when the worker is free again, which
    the pool below leaves to the schedule. *)
Definition engine_ilamb : engine := λ benchmark, inr "_results_".
Definition engine_esmvaltool : engine := λ benchmark, inr "_results_".
Definition engine_pmp : engine := λ benchmark, inr "_results_".

Definition ENGINES : gmap string engine :=
  <["ILAMB" := engine_ilamb]>
    (<["PMP" := engine_pmp]>
       (<["ESMValTool" := engine_esmvaltool]> ∅)).

(** [ENGINES[e]]. *)
Definition registry_lookup (reg : gmap string engine) (e : string) : M engine :=
  match reg !! e with
  | None => raise (KeyError e)
  | Some f => mret f
  end.

(** Calling an engine behaviour: its fault, if any, is raised here. *)
Definition call (f : engine) (benchmark : string) : M string :=
  match f benchmark with
  | inl x => raise x
  | inr out => mret out
  end.

(** ** perform_work

    [ENGINES] is a module global read at call time; [perform_work_with] takes
    its value as an argument and [perform_work] is the function as the module
    defines it.  The f-string reads [instructions['benchmark']] and
    [instructions['engine']] before anything is written. *)
Definition perform_work_with (reg : gmap string engine) (w : worker)
    (instructions : loc) : M loc :=
  let rank := Get_rank w in
  let size := Get_size w in
  let name := Get_processor_name w in
  benchmark ← getitem instructions "benchmark";
  engine_id ← getitem instructions "engine";
  tqdm_write (trace_line benchmark engine_id rank size name);;
  engine_id ← getitem instructions "engine";
  f ← registry_lookup reg engine_id;
  benchmark ← getitem instructions "benchmark";
  out ← call f benchmark;
  dict_update instructions "output" out;;
  mret instructions.

Definition perform_work : worker → loc → M loc := perform_work_with ENGINES.

(** A WorkItem of the design document and the dict that carries it. *)
Record WorkItem : Type := mkWorkItem {
  engine_id : string;
  benchmark_id : string
}.

Definition item_dict (it : WorkItem) : dict :=
  <["engine" := engine_id it]> (<["benchmark" := benchmark_id it]> ∅).

(** ** What one call of perform_work amounts to

    [executed] is the value a call delivers when the dict holds [d] on entry,
    [emitted] the lines it writes.  Both are read off [perform_work_with] by
    the lemma [perform_work_with_eq]. *)
Definition executed (reg : gmap string engine) (d : dict) : exn + dict :=
  match d !! "benchmark" with
  | None => inl (KeyError "benchmark")
  | Some b =>
      match d !! "engine" with
      | None => inl (KeyError "engine")
      | Some e =>
          match reg !! e with
          | None => inl (KeyError e)
          | Some f =>
              match f b with
              | inl x => inl x
              | inr out => inr (<["output" := out]> d)
              end
          end
      end
  end.

Definition emitted (w : worker) (d : dict) : list string :=
  match d !! "benchmark", d !! "engine" with
  | Some b, Some e =>
      [trace_line b e (Get_rank w) (Get_size w) (Get_processor_name w)]
  | _, _ => []
  end.

(** The TaskResult of an item whose engine is registered in [ENGINES]. *)
Definition result_of (it : WorkItem) : dict :=
  <["output" := "_results_"]> (item_dict it).

(** ** The pool

    [MPIPoolExecutor] is mpi4py's, not this module's; the module only
    constructs it, calls [map] and reads the results.  The definitions below
    follow sections 4.4 and 5 of the design document and the call site. *)

(** Modelled from the spec: what a worker does with one task message.  No
    memory is shared between coordinator and workers, tasks and results
    travel as messages: the worker runs [perform_work] on its own copy of
    the dict and sends back a copy of what the call returned, or the
    exception it raised, next to the lines it wrote. *)
Definition run_task (reg : gmap string engine) (w : worker) (d : dict)
    : (exn + dict) * list string :=
  let '(r, σ) := perform_work_with reg w 0 (State {[ 0 := d ]} []) in
  (match r with
   | inl x => inl x
   | inr l => match heap σ !! l with
              | Some d' => inr d'
              | None => inl BadRef
              end
   end, log σ).

Record config : Type := Config {
  max_workers : nat;
  host : nat → string
}.

Definition worker_of (cfg : config) (r : nat) : worker :=
  Worker r (max_workers cfg) (host cfg r).

(** Modelled from the spec: the coordinator's state, which mpi4py keeps.
    The shared pull queue of items not yet assigned, the message each busy
    worker will send (at most one task in flight per worker), the messages
    that arrived, in arrival order, and the lines the workers wrote. *)
Record pool : Type := Pool {
  queue : list (nat * dict);
  running : gmap nat (nat * (exn + dict));
  completed : list (nat * (exn + dict));
  trace : list string
}.

(** Modelled from the spec: the submission half of mpi4py's [map].
    [executor.map(perform_work, work_list)] submits every item at once, in
    order; [i] is the position of the item's future. *)
Definition submit (work_list : list dict) : pool :=
  Pool (imap (λ i d, (i, d)) work_list) ∅ [] [].

(** Modelled from the spec: one move of worker [r], which mpi4py's worker
    loop makes.  A busy worker delivers the result of the task it holds; an
    idle one takes the next unassigned item of the queue and runs it.  The
    task's code, trace line included, runs when the item is taken; the
    engine's sleep is the time until the delivery. *)
Definition worker_step (cfg : config) (reg : gmap string engine) (r : nat)
    (p : pool) : option pool :=
  if decide (r < max_workers cfg) then
    match running p !! r with
    | Some msg =>
        Some (Pool (queue p) (delete r (running p)) (completed p ++ [msg]) (trace p))
    | None =>
        match queue p with
        | [] => None
        | (i, d) :: q =>
            let '(o, lines) := run_task reg (worker_of cfg r) d in
            Some (Pool q (<[r := (i, o)]> (running p)) (completed p) (trace p ++ lines))
        end
    end
  else None.

(** Modelled from the spec: the moves of a run.  Which worker is free first
    depends on the engines' sleeps; a schedule names the worker that moves
    next. *)
Fixpoint run_schedule (cfg : config) (reg : gmap string engine)
    (sched : list nat) (p : pool) : option pool :=
  match sched with
  | [] => Some p
  | r :: sched =>
      match worker_step cfg reg r p with
      | None => None
      | Some p' => run_schedule cfg reg sched p'
      end
  end.

(** Modelled from the spec: the shutdown of mpi4py's executor.  Leaving the
    [with] block waits until nothing is queued or running. *)
Definition drained (p : pool) : bool :=
  bool_decide (queue p = []) && bool_decide (running p = ∅).

(** Modelled from the spec: the future of position [i], which mpi4py
    resolves when the message arrives. *)
Definition future (p : pool) (i : nat) : option (exn + dict) :=
  (list_to_map (completed p) : gmap nat (exn + dict)) !! i.

(** Modelled from the spec: the iterator that mpi4py's [map] returns, as
    [list(results)] consumes it.  The call leaves [unordered] at its default,
    so the iterator reads the futures in submission order; it raises the
    first exception it meets. *)
Fixpoint gather (fut : nat → option (exn + dict)) (i n : nat)
    : option (exn + list dict) :=
  match n with
  | O => Some (inr [])
  | S n =>
      match fut i with
      | None => None
      | Some (inl x) => Some (inl x)
      | Some (inr r) =>
          match gather fut (S i) n with
          | None => None
          | Some (inl x) => Some (inl x)
          | Some (inr rs) => Some (inr (r :: rs))
          end
      end
  end.

(** Modelled from the spec: the main block under a given schedule, from
    [executor.map(perform_work, work_list)] to [list(results)]; [None] when
    the schedule is not a complete run of the pool. *)
Definition executor_map (cfg : config) (reg : gmap string engine)
    (sched : list nat) (work_list : list dict) : option (exn + list dict) :=
  match run_schedule cfg reg sched (submit work_list) with
  | None => None
  | Some p => if drained p then gather (future p) 0 (length work_list) else None
  end.

(** Modelled from the spec: the completions in the order they arrived,
    which is the result sequence of the design document's [run]. *)
Definition arrivals (cfg : config) (reg : gmap string engine)
    (sched : list nat) (work_list : list dict) : option (list (nat * (exn + dict))) :=
  match run_schedule cfg reg sched (submit work_list) with
  | None => None
  | Some p => if drained p then Some (completed p) else None
  end.

(** Modelled from the spec: the lines the workers of a complete run wrote,
    as one stream. *)
Definition stdout (cfg : config) (reg : gmap string engine)
    (sched : list nat) (work_list : list dict) : option (list string) :=
  match run_schedule cfg reg sched (submit work_list) with
  | None => None
  | Some p => if drained p then Some (trace p) else None
  end.

(** Modelled from the spec: the caller's end of the messages.  Submitting
    copies the contents of each dict of the work list into a task message. *)
Definition pickle (σ : state) (work_list : list loc) : option (list dict) :=
  mapM (λ l, heap σ !! l) work_list.

(** Modelled from the spec: a result message read by the caller becomes a
    dict object of its own. *)
Definition unpickle (d : dict) : M loc := λ σ,
  let l := fresh (dom (heap σ)) in
  (inr l, State (<[l := d]> (heap σ)) (log σ)).

Fixpoint unpickle_all (rs : list dict) : M (list loc) :=
  match rs with
  | [] => mret []
  | r :: rs =>
      l ← unpickle r;
      ls ← unpickle_all rs;
      mret (l :: ls)
  end.

(** Modelled from the spec: the main block as the calling process lives it,
    from a work list of dict objects to the list of result objects. *)
Definition main_block (cfg : config) (reg : gmap string engine)
    (sched : list nat) (work_list : list loc) (σ : state)
    : option ((exn + list loc) * state) :=
  match pickle σ work_list with
  | None => None
  | Some ds =>
      match executor_map cfg reg sched ds with
      | None => None
      | Some (inl x) => Some (inl x, σ)
      | Some (inr rs) => Some (unpickle_all rs σ)
      end
  end.

(** The schedule in which worker 0 does everything. *)
Definition solo (n : nat) : list nat := replicate (2 * n) 0.

(** ** Sequential invocation

    [[perform_work(x) for x in work_list]] in one process: the calls share
    the heap, and the list may name one dict several times. *)
Fixpoint sequential (reg : gmap string engine) (w : worker)
    (work_list : list loc) : M (list loc) :=
  match work_list with
  | [] => mret []
  | l :: ls =>
      r ← perform_work_with reg w l;
      rs ← sequential reg w ls;
      mret (r :: rs)
  end.

(** What the caller sees of it: the exception, or the dicts' final contents. *)
Definition sequential_contents (reg : gmap string engine) (w : worker)
    (work_list : list loc) (σ : state) : exn + list (option dict) :=
  match sequential reg w work_list σ with
  | (inl x, _) => inl x
  | (inr rs, σ') => inr ((λ l, heap σ' !! l) <$> rs)
  end.

(** ** Vocabulary of the statements *)

(** The first exception of a list of outcomes, or all the values. *)
Fixpoint all_or_first (os : list (exn + dict)) : exn + list dict :=
  match os with
  | [] => inr []
  | inl x :: _ => inl x
  | inr r :: os =>
      match all_or_first os with
      | inl x => inl x
      | inr rs => inr (r :: rs)
      end
  end.

(** Every submitted position with what its task delivers. *)
Definition deliveries (reg : gmap string engine) (work_list : list dict)
    : list (nat * (exn + dict)) :=
  imap (λ i d, (i, executed reg d)) work_list.

(** The first [k] items have left the queue, and the messages in flight
    and arrived are theirs, each once. *)
Definition pool_inv (reg : gmap string engine) (work_list : list dict)
    (p : pool) : Prop :=
  ∃ k : nat, k ≤ length work_list
    ∧ queue p = drop k (imap (λ i d, (i, d)) work_list)
    ∧ (map_to_list (running p)).*2 ++ completed p
        ≡ₚ take k (deliveries reg work_list).

(** Moves left before the pool has drained. *)
Definition work_left (p : pool) : nat :=
  2 * length (queue p) + size (running p).

(** The dict at [l] still holds the submitted [d], or what a call on [d]
    has made of it. *)
Definition holds (reg : gmap string engine) (σ : state) (l : loc) (d : dict)
    : Prop :=
  heap σ !! l = Some d
  ∨ ∃ r, executed reg d = inr r ∧ heap σ !! l = Some r.

(** The (engine, benchmark) pair a dict carries, and the pair of an arrived
    message that carries a result. *)
Definition pair_of (d : dict) : option string * option string :=
  (d !! "engine", d !! "benchmark").

Definition answered (m : nat * (exn + dict))
    : option (option string * option string) :=
  match m.2 with
  | inr r => Some (pair_of r)
  | inl _ => None
  end.

(** A dict that has the two fields of a WorkItem. *)
Definition has_fields (d : dict) : Prop :=
  is_Some (d !! "benchmark") ∧ is_Some (d !! "engine").

(** Whether a task succeeded, and with what it failed. *)
Inductive kind : Type :=
| Succeeded
| Failed (x : exn).

Definition kind_of {A : Type} (o : exn + A) : kind :=
  match o with
  | inl x => Failed x
  | inr _ => Succeeded
  end.

(** Two registries have the same engines, and each engine succeeds or fails
    on the same benchmarks in both; the values returned may differ. *)
Definition same_kinds (reg reg' : gmap string engine) : Prop :=
  ∀ e b, (λ f : engine, kind_of (f b)) <$> reg !! e
         = (λ f : engine, kind_of (f b)) <$> reg' !! e.

(** The (engine, benchmark, kind) entry of an arrived message: the item is
    the one at the message's position. *)
Definition composition (work_list : list dict) (m : nat * (exn + dict))
    : option string * option string * kind :=
  (work_list !! m.1 ≫= (.!! "engine"),
   work_list !! m.1 ≫= (.!! "benchmark"),
   kind_of m.2).

(** ** Inputs of the examples *)

Definition cfg1 : config := Config 1 (λ r, "node0").
Definition cfg2 : config := Config 2 (λ r, "node" +:+ pretty r).
Definition cfg3 : config := Config 3 (λ r, "host" +:+ pretty r).

Definition items3 : list WorkItem :=
  [ mkWorkItem "PMP" "AMOC"; mkWorkItem "ESMValTool" "TCRE";
    mkWorkItem "ILAMB" "nbp" ].

(** Twenty submissions of one item. *)
Definition work20 : list WorkItem := replicate 20 (mkWorkItem "ILAMB" "nbp").

(** The scenario of the design document with an engine nobody registered,
    and the messages of one of its runs. *)
Definition work_unknown : list dict :=
  [ item_dict (mkWorkItem "PMP" "AMOC");
    item_dict (mkWorkItem "ILAMB" "nbp");
    item_dict (mkWorkItem "UNKNOWN" "x") ].

Definition arrived_unknown : list (nat * (exn + dict)) :=
  [ (1, inr (result_of (mkWorkItem "ILAMB" "nbp")));
    (0, inr (result_of (mkWorkItem "PMP" "AMOC")));
    (2, inl (KeyError "UNKNOWN")) ].

(** A registry with an engine that fails, next to the three of the module. *)
Definition engine_broken : engine := λ benchmark, inl (EngineFault "boom").

Definition ENGINES_broken : gmap string engine :=
  <["BROKEN" := engine_broken]> ENGINES.

(** The registry of another run, in which ILAMB returns something else. *)
Definition engine_ilamb_rerun : engine := λ benchmark, inr "_results_2_".

Definition ENGINES_rerun : gmap string engine :=
  <["ILAMB" := engine_ilamb_rerun]> ENGINES.

Definition arrived_rerun : list (nat * (exn + dict)) :=
  [ (0, inr (result_of (mkWorkItem "PMP" "AMOC")));
    (2, inl (KeyError "UNKNOWN"));
    (1, inr (<["output" := "_results_2_"]> (item_dict (mkWorkItem "ILAMB" "nbp")))) ].

(** A caller's heap in which a work list can name one dict twice. *)
Definition heap_shared : state :=
  State (<[0 := item_dict (mkWorkItem "PMP" "AMOC")]>
           {[ 1 := item_dict (mkWorkItem "ILAMB" "nbp") ]}) [].

(** ** parse_ref_setup *)

(** A dict display [{...}] makes a new object. *)
Definition new_dict (d : dict) (σ : state) : loc * state :=
  let l := fresh (dom (heap σ)) in
  (l, State (<[l := d]> (heap σ)) (log σ)).

(** The population [random.sample] draws from when it is given [counts]:
    entry [i] of [population] stands [counts[i]] times, in order. *)
Definition expand {A : Type} (population : list A) (counts : list nat) : list A :=
  mjoin (zip_with (λ x c, replicate c x) population counts).

(** What the generator can hand to [random.sample] for a sample of [k] out of
    [total]: [k] positions, no one twice. *)
Definition is_draw (total k : nat) (selections : list nat) : Prop :=
  length selections = k ∧ NoDup selections ∧ Forall (λ s, s < total) selections.

Global Instance is_draw_dec (total k : nat) (selections : list nat) :
  Decision (is_draw total k selections).
Proof. unfold is_draw. apply _. Defined.

(** [random.sample(population, k, counts=counts)], the positions drawn being
    the randomness of the call.  [None] when Python raises [ValueError]
    (counts of another length than the population, a sample larger than the
    population) and when [selections] is no draw the generator can make. *)
Definition random_sample {A : Type} (population : list A) (k : nat)
    (counts : list nat) (selections : list nat) : option (list A) :=
  let expanded := expand population counts in
  if decide (length counts = length population
             ∧ is_draw (length expanded) k selections)
  then mapM (λ s, expanded !! s) selections
  else None.

(** [parse_ref_setup(filename)]: the file is not read.  The three sample
    dicts are made once and the returned list names them, each as often as
    it was drawn. *)
Definition parse_ref_setup (filename : string) (selections : list nat)
    (σ : state) : option (list loc * state) :=
  let '(l0, σ) := new_dict (<["engine" := "PMP"]> (<["benchmark" := "AMOC"]> ∅)) σ in
  let '(l1, σ) := new_dict (<["engine" := "ESMValTool"]> (<["benchmark" := "TCRE"]> ∅)) σ in
  let '(l2, σ) := new_dict (<["engine" := "ILAMB"]> (<["benchmark" := "nbp"]> ∅)) σ in
  let sample := [l0; l1; l2] in
  match random_sample sample 20 [20; 20; 20] selections with
  | None => None
  | Some sample => Some (sample, σ)
  end.

(** The module run as a script: the work list comes from [parse_ref_setup]
    and goes through the pool. *)
Definition main (cfg : config) (sched : list nat) (selections : list nat)
    (σ : state) : option ((exn + list loc) * state) :=
  match parse_ref_setup "ref_setup.yaml" selections σ with
  | None => None
  | Some (work_list, σ) => main_block cfg ENGINES sched work_list σ
  end.

(** The items of a draw: position [s] falls in the block of sample entry
    [s / 20]. *)
Definition sampled_items (selections : list nat) : list WorkItem :=
  omap (λ s, items3 !! (s / 20)) selections.

(** A draw for the examples: the first twenty of the even positions. *)
Definition draw_even : list nat := (λ i, 2 * i) <$> seq 0 20.

(** * Properties *)

(** The line of the sample output in the module's closing docstring. *)
Example trace_line_sample :
  trace_line "AMOC" "PMP" 1 9 "andes18.olcf.ornl.gov"
  = "AMOC        PMP   1 of   9 andes18.olcf.ornl.gov".
Proof. reflexivity. Qed.

Example perform_work_sample :
  perform_work (Worker 1 9 "andes18") 0
    (State {[ 0 := item_dict (mkWorkItem "PMP" "AMOC") ]} [])
  = (inr 0,
     State {[ 0 := result_of (mkWorkItem "PMP" "AMOC") ]}
           ["AMOC        PMP   1 of   9 andes18"]).
Proof. reflexivity. Qed.

(** Worker 1 is faster than worker 0: the results arrive out of order and
    are handed over in order. *)
Example executor_map_sample :
  executor_map cfg2 ENGINES [0; 1; 1; 1; 0; 1] (item_dict <$> items3)
  = Some (inr (result_of <$> items3)).
Proof. compute_done. Qed.

Example arrivals_sample :
  (λ l, l.*1) <$> arrivals cfg2 ENGINES [0; 1; 1; 1; 0; 1] (item_dict <$> items3)
  = Some [1; 0; 2].
Proof. compute_done. Qed.

Example executor_map_unknown :
  executor_map cfg2 ENGINES [0; 1; 1; 1; 0; 1] work_unknown
  = Some (inl (KeyError "UNKNOWN")).
Proof. compute_done. Qed.

(** ** One call *)

Lemma state_eta (σ : state) : State (heap σ) (log σ) = σ.
Proof. by destruct σ. Qed.

Lemma perform_work_with_eq (reg : gmap string engine) (w : worker) (l : loc)
    (σ : state) (d : dict) :
  heap σ !! l = Some d →
  perform_work_with reg w l σ =
    match executed reg d with
    | inl x => (inl x, State (heap σ) (log σ ++ emitted w d))
    | inr r => (inr l, State (<[l := r]> (heap σ)) (log σ ++ emitted w d))
    end.
Proof.
  intros Hl. unfold perform_work_with, executed, emitted.
  unfold mbind, M_bind, getitem at 1. rewrite Hl.
  destruct (d !! "benchmark") as [b|] eqn:Hb;
    [|by rewrite app_nil_r, state_eta].
  unfold getitem at 1. rewrite Hl.
  destruct (d !! "engine") as [e|] eqn:He;
    [|by rewrite app_nil_r, state_eta].
  unfold tqdm_write, getitem, registry_lookup, call, dict_update. simpl.
  rewrite Hl, He.
  destruct (reg !! e) as [f|]; [|done]. simpl. rewrite Hl, Hb.
  destruct (f b) as [x|out]; [done|]. simpl. by rewrite Hl.
Qed.

Lemma run_task_eq (reg : gmap string engine) (w : worker) (d : dict) :
  run_task reg w d = (executed reg d, emitted w d).
Proof.
  unfold run_task.
  rewrite (perform_work_with_eq reg w 0 _ d) by apply lookup_singleton_eq.
  destruct (executed reg d) as [x|r]; [done|].
  simpl. by rewrite lookup_insert_eq.
Qed.

Lemma executed_fields (reg : gmap string engine) (d r : dict) (k : string) :
  executed reg d = inr r → k ≠ "output" → r !! k = d !! k.
Proof.
  unfold executed. intros H Hk.
  destruct (d !! "benchmark") as [b|]; [|done].
  destruct (d !! "engine") as [e|]; [|done].
  destruct (reg !! e) as [f|]; [|done].
  destruct (f b) as [x|out]; [done|].
  injection H as <-. by rewrite lookup_insert_ne.
Qed.

Lemma executed_output (reg : gmap string engine) (d r : dict) :
  executed reg d = inr r → ∃ out, r = <["output" := out]> d.
Proof.
  unfold executed. intros H.
  destruct (d !! "benchmark") as [b|]; [|done].
  destruct (d !! "engine") as [e|]; [|done].
  destruct (reg !! e) as [f|]; [|done].
  destruct (f b) as [x|out]; [done|].
  injection H as <-. by exists out.
Qed.

(** A second call on a dict that a first call has updated leaves it as it
    is: the engine sees the same benchmark. *)
Lemma executed_again (reg : gmap string engine) (d r : dict) :
  executed reg d = inr r → executed reg r = inr r.
Proof.
  intros H. unfold executed.
  rewrite !(executed_fields reg d r) by done.
  unfold executed in H.
  destruct (d !! "benchmark") as [b|]; [|done].
  destruct (d !! "engine") as [e|]; [|done].
  destruct (reg !! e) as [f|]; [|done].
  destruct (f b) as [x|out]; [done|].
  injection H as <-. by rewrite insert_insert_eq.
Qed.

Lemma executed_unregistered (reg : gmap string engine) (d : dict) (e b : string) :
  d !! "engine" = Some e → d !! "benchmark" = Some b → reg !! e = None →
  executed reg d = inl (KeyError e).
Proof. intros He Hb Hreg. unfold executed. by rewrite Hb, He, Hreg. Qed.

Lemma executed_fault (reg : gmap string engine) (d : dict) (e b : string)
    (f : engine) (x : exn) :
  d !! "engine" = Some e → d !! "benchmark" = Some b →
  reg !! e = Some f → f b = inl x →
  executed reg d = inl x.
Proof. intros He Hb Hreg Hf. unfold executed. by rewrite Hb, He, Hreg, Hf. Qed.

Lemma emitted_item (w : worker) (d : dict) (e b : string) :
  d !! "engine" = Some e → d !! "benchmark" = Some b →
  emitted w d
  = [trace_line b e (Get_rank w) (Get_size w) (Get_processor_name w)].
Proof. intros He Hb. unfold emitted. by rewrite Hb, He. Qed.

(** ** The registered engines *)

Lemma ENGINES_dom (e : string) :
  is_Some (ENGINES !! e) ↔ e = "ILAMB" ∨ e = "PMP" ∨ e = "ESMValTool".
Proof.
  split.
  - intros [f Hf]. unfold ENGINES in Hf.
    rewrite !lookup_insert_Some, lookup_empty in Hf.
    destruct Hf as [[He _]|[_ [[He _]|[_ [[He _]|[_ ?]]]]]]; subst; auto.
    done.
  - intros [-> | [-> | ->]]; by eexists.
Qed.

Lemma ENGINES_constant (e : string) (f : engine) (b : string) :
  ENGINES !! e = Some f → f b = inr "_results_".
Proof.
  unfold ENGINES. rewrite !lookup_insert_Some, lookup_empty.
  intros [[_ <-]|[_ [[_ <-]|[_ [[_ <-]|[_ ?]]]]]]; done.
Qed.

Lemma item_dict_engine (it : WorkItem) :
  item_dict it !! "engine" = Some (engine_id it).
Proof. apply lookup_insert_eq. Qed.

Lemma item_dict_benchmark (it : WorkItem) :
  item_dict it !! "benchmark" = Some (benchmark_id it).
Proof. unfold item_dict. by rewrite lookup_insert_ne, lookup_insert_eq. Qed.

Lemma result_of_engine (it : WorkItem) :
  result_of it !! "engine" = Some (engine_id it).
Proof. unfold result_of. by rewrite lookup_insert_ne, item_dict_engine. Qed.

Lemma result_of_benchmark (it : WorkItem) :
  result_of it !! "benchmark" = Some (benchmark_id it).
Proof. unfold result_of. by rewrite lookup_insert_ne, item_dict_benchmark. Qed.

Lemma executed_registered (it : WorkItem) :
  is_Some (ENGINES !! engine_id it) →
  executed ENGINES (item_dict it) = inr (result_of it).
Proof.
  intros [f Hf]. unfold executed.
  rewrite item_dict_benchmark, item_dict_engine, Hf.
  by rewrite (ENGINES_constant _ _ _ Hf).
Qed.

(** ** Runs of the pool *)

Section pool_runs.

Variable cfg : config.
Variable reg : gmap string engine.

Lemma pool_inv_submit (work_list : list dict) :
  pool_inv reg work_list (submit work_list).
Proof.
  exists 0. split; [lia|]. split; [done|].
  simpl. by rewrite map_to_list_empty.
Qed.

Lemma pool_inv_step (work_list : list dict) (r : nat) (p p' : pool) :
  pool_inv reg work_list p →
  worker_step cfg reg r p = Some p' →
  pool_inv reg work_list p'.
Proof.
  intros (k & Hk & Hq & Hperm). unfold worker_step.
  case_decide; [|done].
  destruct (running p !! r) as [msg|] eqn:Hr.
  - intros [= <-]. exists k. simpl. split; [done|]. split; [done|].
    rewrite <- Hperm, <- (map_to_list_delete (running p) r msg Hr).
    csimpl. rewrite app_assoc. symmetry. apply Permutation_cons_append.
  - destruct (queue p) as [|[i d] q] eqn:Hqp; [done|].
    rewrite run_task_eq. intros [= <-].
    assert (imap (λ i d, (i, d)) work_list !! k = Some (i, d)) as Hik.
    { rewrite <- (Nat.add_0_r k), <- lookup_drop, <- Hq. done. }
    rewrite list_lookup_imap in Hik.
    destruct (work_list !! k) as [d'|] eqn:Hwk; simplify_eq/=.
    apply lookup_lt_Some in Hwk as Hlt.
    exists (S i). simpl. split; [lia|]. split.
    + replace (S i) with (i + 1) by lia.
      by rewrite <- drop_drop, <- Hq.
    + rewrite (take_S_r _ _ (i, executed reg d)).
      2:{ unfold deliveries. by rewrite list_lookup_imap, Hwk. }
      rewrite map_to_list_insert by done. simpl.
      rewrite Hperm. apply Permutation_cons_append.
Qed.

Lemma pool_inv_run (work_list : list dict) (sched : list nat) (p p' : pool) :
  pool_inv reg work_list p →
  run_schedule cfg reg sched p = Some p' →
  pool_inv reg work_list p'.
Proof.
  revert p. induction sched as [|r sched IH]; simpl; intros p Hinv.
  - by intros [= <-].
  - destruct (worker_step cfg reg r p) as [p1|] eqn:Hstep; [|done].
    apply IH. by eapply pool_inv_step.
Qed.

Lemma drained_spec (p : pool) :
  drained p = true ↔ queue p = [] ∧ running p = ∅.
Proof.
  unfold drained. rewrite andb_true_iff, !bool_decide_eq_true. done.
Qed.

(** When the pool has drained, every position has arrived once, with
    what [perform_work] delivers on its item. *)
Lemma drained_completed (work_list : list dict) (p : pool) :
  pool_inv reg work_list p →
  drained p = true →
  completed p ≡ₚ deliveries reg work_list.
Proof.
  intros (k & Hk & Hq & Hperm) [Hqe Hre]%drained_spec.
  rewrite Hre, map_to_list_empty in Hperm. simpl in Hperm.
  rewrite Hperm. rewrite Hqe in Hq. symmetry in Hq.
  apply drop_nil_inv in Hq. rewrite length_imap in Hq.
  rewrite take_ge; [done|]. unfold deliveries. rewrite length_imap. lia.
Qed.

Lemma deliveries_fst (work_list : list dict) :
  (deliveries reg work_list).*1 = seq 0 (length work_list).
Proof.
  unfold deliveries. apply list_eq. intros i.
  rewrite list_lookup_fmap, list_lookup_imap.
  destruct (work_list !! i) as [d|] eqn:Hi; simpl.
  - apply lookup_lt_Some in Hi. by rewrite lookup_seq_lt.
  - apply lookup_ge_None in Hi. by rewrite lookup_seq_ge.
Qed.

Lemma future_drained (work_list : list dict) (p : pool) (i : nat) (d : dict) :
  completed p ≡ₚ deliveries reg work_list →
  work_list !! i = Some d →
  future p i = Some (executed reg d).
Proof.
  intros Hperm Hi. unfold future.
  apply elem_of_list_to_map_1.
  - rewrite Hperm, deliveries_fst. apply NoDup_seq.
  - rewrite Hperm. unfold deliveries.
    apply list_elem_of_lookup. exists i.
    by rewrite list_lookup_imap, Hi.
Qed.

Lemma gather_all (fut : nat → option (exn + dict)) (l : list dict) (i : nat) :
  (∀ j d, l !! j = Some d → fut (i + j) = Some (executed reg d)) →
  gather fut i (length l) = Some (all_or_first (executed reg <$> l)).
Proof.
  revert i. induction l as [|d l IH]; intros i Hfut; [done|].
  csimpl. rewrite <- (Nat.add_0_r i) at 1. rewrite (Hfut 0 d) by done.
  destruct (executed reg d) as [x|r]; [done|].
  rewrite IH; [by destruct (all_or_first _)|].
  intros j d' Hj. replace (S i + j) with (i + S j) by lia. by apply Hfut.
Qed.

(** Whatever the schedule, the caller gets what the calls deliver, taken
    in submission order. *)
Lemma executor_map_any_schedule (sched : list nat) (work_list : list dict)
    (o : exn + list dict) :
  executor_map cfg reg sched work_list = Some o →
  o = all_or_first (executed reg <$> work_list).
Proof.
  unfold executor_map.
  destruct (run_schedule cfg reg sched (submit work_list)) as [p|] eqn:Hrun;
    [|done].
  destruct (drained p) eqn:Hd; [|done].
  assert (completed p ≡ₚ deliveries reg work_list) as Hperm.
  { eapply drained_completed; [|done].
    eapply pool_inv_run; [apply pool_inv_submit|done]. }
  rewrite gather_all; [congruence|].
  intros j d Hj. simpl. by eapply future_drained.
Qed.

(** Whatever the schedule, the messages that arrived are one per position. *)
Lemma arrivals_any_schedule (sched : list nat) (work_list : list dict)
    (done : list (nat * (exn + dict))) :
  arrivals cfg reg sched work_list = Some done →
  done ≡ₚ deliveries reg work_list.
Proof.
  unfold arrivals.
  destruct (run_schedule cfg reg sched (submit work_list)) as [p|] eqn:Hrun;
    [|done].
  destruct (drained p) eqn:Hd; [|done]. intros [= <-].
  eapply drained_completed; [|done].
  eapply pool_inv_run; [apply pool_inv_submit|done].
Qed.

Lemma arrivals_future (sched : list nat) (wl : list dict)
    (done : list (nat * (exn + dict))) (i : nat) (d : dict) :
  arrivals cfg reg sched wl = Some done →
  wl !! i = Some d →
  (i, executed reg d) ∈ done.
Proof.
  intros Hdone Hi. apply arrivals_any_schedule in Hdone. rewrite Hdone.
  unfold deliveries. apply list_elem_of_lookup. exists i.
  by rewrite list_lookup_imap, Hi.
Qed.

(** *** Termination *)

Lemma worker_step_work_left (r : nat) (p p' : pool) :
  worker_step cfg reg r p = Some p' →
  S (work_left p') = work_left p.
Proof.
  unfold worker_step, work_left. case_decide; [|done].
  destruct (running p !! r) as [msg|] eqn:Hr.
  - intros [= <-]. simpl.
    rewrite <- (insert_delete_id (running p) r msg Hr) at 2.
    rewrite map_size_insert_None by apply lookup_delete_eq. lia.
  - destruct (queue p) as [|[i d] q]; [done|].
    destruct (run_task reg (worker_of cfg r) d) as [o lines].
    intros [= <-]. simpl. rewrite map_size_insert_None by done. lia.
Qed.

(** A run from [p] has exactly as many moves as work is done. *)
Lemma run_schedule_length (sched : list nat) (p p' : pool) :
  run_schedule cfg reg sched p = Some p' →
  length sched + work_left p' = work_left p.
Proof.
  revert p. induction sched as [|r sched IH]; simpl; intros p.
  - by intros [= <-].
  - destruct (worker_step cfg reg r p) as [p1|] eqn:Hstep; [|done].
    intros Hrun. apply IH in Hrun.
    apply worker_step_work_left in Hstep. lia.
Qed.

Lemma worker_step_ranks (r : nat) (p p' : pool) :
  worker_step cfg reg r p = Some p' →
  (∀ r', r' ∈ dom (running p) → r' < max_workers cfg) →
  ∀ r', r' ∈ dom (running p') → r' < max_workers cfg.
Proof.
  unfold worker_step. case_decide as Hr; [|done].
  destruct (running p !! r) as [msg|].
  - intros [= <-] Hdom r'. simpl. rewrite dom_delete_L.
    intros [Hin _]%elem_of_difference. by apply Hdom.
  - destruct (queue p) as [|[i d] q]; [done|].
    destruct (run_task reg (worker_of cfg r) d) as [o lines].
    intros [= <-] Hdom r'. simpl. rewrite dom_insert_L.
    intros [->%elem_of_singleton|Hin]%elem_of_union; [done|by apply Hdom].
Qed.

Lemma run_schedule_ranks (sched : list nat) (p p' : pool) :
  run_schedule cfg reg sched p = Some p' →
  (∀ r', r' ∈ dom (running p) → r' < max_workers cfg) →
  ∀ r', r' ∈ dom (running p') → r' < max_workers cfg.
Proof.
  revert p. induction sched as [|r sched IH]; simpl; intros p.
  - by intros [= <-].
  - destruct (worker_step cfg reg r p) as [p1|] eqn:Hstep; [|done].
    intros Hrun Hdom. apply (IH p1 Hrun).
    by eapply worker_step_ranks.
Qed.

(** The pool cannot get stuck: while it has not drained, some worker can
    move, whatever the moves so far. *)
Lemma no_deadlock (sched : list nat) (work_list : list dict) (p : pool) :
  0 < max_workers cfg →
  run_schedule cfg reg sched (submit work_list) = Some p →
  drained p = false →
  ∃ r p', worker_step cfg reg r p = Some p'.
Proof.
  intros Hn Hrun Hd. unfold worker_step.
  destruct (decide (running p = ∅)) as [He|Hne].
  - exists 0. rewrite decide_True by done. rewrite He, lookup_empty.
    destruct (queue p) as [|[i d] q] eqn:Hq.
    + unfold drained in Hd. rewrite Hq, He in Hd.
      by rewrite !bool_decide_eq_true_2 in Hd.
    + destruct (run_task reg (worker_of cfg 0) d). eauto.
  - apply map_choose in Hne as (r & msg & Hr).
    exists r. rewrite decide_True.
    + rewrite Hr. eauto.
    + eapply run_schedule_ranks; [exact Hrun| |].
      * intros r'. simpl. by rewrite dom_empty_L, elem_of_empty.
      * apply elem_of_dom. eauto.
Qed.

Lemma solo_run (q : list (nat * dict)) (p : pool) :
  0 < max_workers cfg →
  queue p = q → running p = ∅ →
  ∃ p', run_schedule cfg reg (solo (length q)) p = Some p'
        ∧ drained p' = true.
Proof.
  intros Hn. revert p. induction q as [|[i d] q IH]; intros p Hq Hr.
  - exists p. split; [done|]. by apply drained_spec.
  - unfold solo. replace (2 * length ((i, d) :: q)) with (S (S (2 * length q)))
      by (simpl; lia).
    simpl. unfold worker_step at 1. rewrite decide_True by done.
    rewrite Hr, lookup_empty, Hq.
    destruct (run_task reg (worker_of cfg 0) d) as [o lines].
    unfold worker_step at 1. rewrite decide_True by done. simpl.
    rewrite lookup_insert_eq.
    apply IH; simpl; [done|].
    by rewrite delete_insert_eq, delete_empty.
Qed.

(** A pool with at least one worker completes every work list. *)
Lemma executor_map_solo (work_list : list dict) :
  0 < max_workers cfg →
  executor_map cfg reg (solo (length work_list)) work_list
  = Some (all_or_first (executed reg <$> work_list)).
Proof.
  intros Hn.
  destruct (solo_run (imap (λ i d, (i, d)) work_list) (submit work_list))
    as (p' & Hrun & Hd); [done..|].
  rewrite length_imap in Hrun.
  destruct (executor_map cfg reg (solo (length work_list)) work_list)
    as [o|] eqn:Hmap.
  - by rewrite (executor_map_any_schedule _ _ _ Hmap).
  - unfold executor_map in Hmap. rewrite Hrun, Hd in Hmap.
    rewrite gather_all in Hmap; [done|].
    intros j d Hj. simpl. eapply future_drained; [|done].
    eapply drained_completed; [|done].
    eapply pool_inv_run; [apply pool_inv_submit|done].
Qed.

End pool_runs.

(** ** Calls that share the heap *)

Section shared_heap.

Variable reg : gmap string engine.

Lemma holds_call (σ : state) (l : loc) (d r : dict) :
  holds reg σ l d → executed reg d = inr r →
  ∀ w, perform_work_with reg w l σ
       = (inr l, State (<[l := r]> (heap σ))
                       (log σ ++ emitted w (default d (heap σ !! l)))).
Proof.
  intros [Hl|(r' & Hr' & Hl)] Hex w.
  - rewrite (perform_work_with_eq reg w l σ d Hl), Hex. by rewrite Hl.
  - assert (r' = r) as -> by congruence.
    rewrite (perform_work_with_eq reg w l σ r Hl).
    by rewrite (executed_again reg d r Hex), Hl.
Qed.

Lemma holds_raise (σ : state) (l : loc) (d : dict) (x : exn) :
  holds reg σ l d → executed reg d = inl x →
  ∀ w, perform_work_with reg w l σ
       = (inl x, State (heap σ) (log σ ++ emitted w d)).
Proof.
  intros [Hl|(r' & Hr' & Hl)] Hex w; [|congruence].
  by rewrite (perform_work_with_eq reg w l σ d Hl), Hex.
Qed.

Lemma holds_after (σ : state) (l l' : loc) (d d' r : dict) (lg : list string) :
  holds reg σ l d → executed reg d = inr r →
  holds reg σ l' d' →
  holds reg (State (<[l := r]> (heap σ)) lg) l' d'.
Proof.
  intros Hl Hex Hl'. unfold holds. simpl.
  destruct (decide (l' = l)) as [->|Hne]; [|by rewrite lookup_insert_ne].
  rewrite lookup_insert_eq.
  destruct Hl as [Hl|(r0 & Hr0 & Hl)], Hl' as [Hl'|(r1 & Hr1 & Hl')];
    simplify_eq.
  - right. eauto.
  - right. exists r. split; [|done].
    pose proof (executed_again _ _ _ Hr1). congruence.
  - left. congruence.
  - right. exists r. split; [|done]. congruence.
Qed.

(** The calls in a row deliver what each call delivers on its own item,
    also when the list names one dict several times. *)
Lemma sequential_holds (w : worker) (ls : list loc) (wl : list dict) (σ : state) :
  Forall2 (holds reg σ) ls wl →
  match all_or_first (executed reg <$> wl) with
  | inl x => ∃ σ', sequential reg w ls σ = (inl x, σ')
  | inr rs =>
      ∃ σ', sequential reg w ls σ = (inr ls, σ')
            ∧ Forall2 (λ l r, heap σ' !! l = Some r) ls rs
            ∧ ∀ l r, heap σ !! l = Some r → executed reg r = inr r →
                     heap σ' !! l = Some r
  end.
Proof.
  intros H. revert ls σ H.
  induction wl as [|d wl IH]; intros ls σ H.
  - apply Forall2_nil_inv_r in H as ->. simpl. exists σ. eauto.
  - apply Forall2_cons_inv_r in H as (l & ls' & Hl & Hls & ->). csimpl.
    destruct (executed reg d) as [x|r] eqn:Hex.
    + unfold mbind, M_bind. rewrite (holds_raise σ l d x Hl Hex). eauto.
    + unfold mbind, M_bind. rewrite (holds_call σ l d r Hl Hex).
      set (σ1 := State _ _).
      assert (Forall2 (holds reg σ1) ls' wl) as Hls1.
      { eapply Forall2_impl; [exact Hls|].
        intros l' d' Hl'. by eapply holds_after. }
      specialize (IH ls' σ1 Hls1).
      destruct (all_or_first (executed reg <$> wl)) as [x|rs].
      * destruct IH as (σ' & ->). eauto.
      * destruct IH as (σ' & -> & Hrs & Hfix). exists σ'.
        assert (∀ l0 r0, heap σ !! l0 = Some r0 → executed reg r0 = inr r0 →
                         heap σ1 !! l0 = Some r0) as Hstep.
        { intros l0 r0 Hl0 Hr0. subst σ1. simpl.
          destruct (decide (l0 = l)) as [->|Hne];
            [|by rewrite lookup_insert_ne].
          rewrite lookup_insert_eq. f_equal.
          destruct Hl as [Hl|(r' & Hr' & Hl)]; congruence. }
        split; [done|]. split.
        -- constructor; [|done]. apply Hfix.
           ++ subst σ1. simpl. apply lookup_insert_eq.
           ++ by eapply executed_again.
        -- intros l0 r0 Hl0 Hr0. apply Hfix; [by apply Hstep|done].
Qed.

End shared_heap.

(** ** What the caller of the pool receives *)

Lemma all_or_first_inr (os : list (exn + dict)) (rs : list dict) :
  all_or_first os = inr rs → os = inr <$> rs.
Proof.
  revert rs. induction os as [|[x|r] os IH]; intros rs; simpl.
  - by intros [= <-].
  - done.
  - destruct (all_or_first os) as [x|rs']; [done|].
    intros [= <-]. csimpl. f_equal. by apply IH.
Qed.

Lemma all_or_first_raises (os : list (exn + dict)) (x : exn) :
  inl x ∈ os → ∃ x', all_or_first os = inl x'.
Proof.
  induction os as [|[y|r] os IH]; intros Hin.
  - by apply not_elem_of_nil in Hin.
  - simpl. eauto.
  - apply elem_of_cons in Hin as [?|Hin]; [done|].
    destruct (IH Hin) as [x' Hx']. simpl. rewrite Hx'. eauto.
Qed.

Lemma all_or_first_registered (items : list WorkItem) :
  Forall (λ it, is_Some (ENGINES !! engine_id it)) items →
  all_or_first (executed ENGINES <$> (item_dict <$> items))
  = inr (result_of <$> items).
Proof.
  induction 1 as [|it items Hit _ IH]; [done|].
  csimpl. by rewrite (executed_registered it Hit), IH.
Qed.

Lemma executor_map_raises (cfg : config) (reg : gmap string engine)
    (sched : list nat) (wl : list dict) (o : exn + list dict)
    (i : nat) (d : dict) (x : exn) :
  executor_map cfg reg sched wl = Some o →
  wl !! i = Some d → executed reg d = inl x →
  ∃ x', o = inl x'.
Proof.
  intros Ho Hi Hx. apply executor_map_any_schedule in Ho as ->.
  apply (all_or_first_raises _ x). rewrite <- Hx.
  apply list_elem_of_fmap. exists d. split; [done|].
  apply list_elem_of_lookup. eauto.
Qed.

Lemma executor_map_registered (cfg : config) (sched : list nat)
    (items : list WorkItem) (o : exn + list dict) :
  Forall (λ it, is_Some (ENGINES !! engine_id it)) items →
  executor_map cfg ENGINES sched (item_dict <$> items) = Some o →
  o = inr (result_of <$> items).
Proof.
  intros Hreg Ho. apply executor_map_any_schedule in Ho as ->.
  by apply all_or_first_registered.
Qed.

Lemma omap_answered (reg : gmap string engine) (wl rs : list dict) (k : nat) :
  executed reg <$> wl = inr <$> rs →
  omap answered (imap (λ i d, (k + i, executed reg d)) wl) = pair_of <$> rs.
Proof.
  revert rs k. induction wl as [|d wl IH]; intros [|r rs] k Ho;
    simplify_eq/=; [done|].
  unfold answered at 1. simpl.
  match goal with H : executed _ _ = _ |- _ => rewrite H end.
  f_equal. rewrite <- (IH rs (S k)) by done.
  f_equal. apply imap_ext. intros i d' _. simpl. f_equal. lia.
Qed.

Lemma executed_same_kinds (reg reg' : gmap string engine) (d : dict) :
  same_kinds reg reg' →
  kind_of (executed reg d) = kind_of (executed reg' d).
Proof.
  intros Hk. unfold executed.
  destruct (d !! "benchmark") as [b|]; [|done].
  destruct (d !! "engine") as [e|]; [|done].
  specialize (Hk e b).
  destruct (reg !! e) as [f|], (reg' !! e) as [f'|]; simplify_eq/=; [|done].
  by destruct (f b), (f' b).
Qed.

Lemma same_kinds_rerun : same_kinds ENGINES ENGINES_rerun.
Proof.
  intros e b. unfold ENGINES_rerun, ENGINES.
  destruct (decide (e = "ILAMB")) as [->|Hne].
  - by rewrite !lookup_insert_eq.
  - by rewrite !(lookup_insert_ne _ "ILAMB") by done.
Qed.

(** ** The lines of a run *)

Lemma worker_step_trace (cfg : config) (reg : gmap string engine) (r : nat)
    (p p' : pool) :
  worker_step cfg reg r p = Some p' →
  Forall has_fields (queue p).*2 →
  Forall has_fields (queue p').*2
  ∧ length (trace p') + length (queue p') = length (trace p) + length (queue p).
Proof.
  unfold worker_step. case_decide; [|done].
  destruct (running p !! r) as [msg|].
  - by intros [= <-] Hq.
  - destruct (queue p) as [|[i d] q]; [done|].
    rewrite run_task_eq. intros [= <-] Hq. simpl in *.
    apply Forall_cons in Hq as [[[b Hb] [e He]] Hq]. split; [done|].
    rewrite (emitted_item _ _ _ _ He Hb), length_app. simpl. lia.
Qed.

Lemma run_schedule_trace (cfg : config) (reg : gmap string engine)
    (sched : list nat) (p p' : pool) :
  run_schedule cfg reg sched p = Some p' →
  Forall has_fields (queue p).*2 →
  length (trace p') + length (queue p') = length (trace p) + length (queue p).
Proof.
  revert p. induction sched as [|r sched IH]; simpl; intros p.
  - by intros [= <-].
  - destruct (worker_step cfg reg r p) as [p1|] eqn:Hstep; [|done].
    intros Hrun Hq.
    destruct (worker_step_trace _ _ _ _ _ Hstep Hq) as [Hq1 Hlen].
    rewrite <- Hlen. by apply IH.
Qed.

(** A complete run writes one line per item. *)
Lemma stdout_one_line_per_item (cfg : config) (reg : gmap string engine)
    (sched : list nat) (work_list : list dict) (lines : list string) :
  Forall has_fields work_list →
  stdout cfg reg sched work_list = Some lines →
  length lines = length work_list.
Proof.
  intros Hwl. unfold stdout.
  destruct (run_schedule cfg reg sched (submit work_list)) as [p|] eqn:Hrun;
    [|done].
  destruct (drained p) eqn:Hd; [|done]. intros [= <-].
  apply run_schedule_trace in Hrun.
  - apply drained_spec in Hd as [Hq _]. rewrite Hq in Hrun. simpl in Hrun.
    rewrite length_imap in Hrun. lia.
  - simpl. replace ((imap (λ i d, (i, d)) work_list).*2) with work_list; [done|].
    apply list_eq. intros i. rewrite list_lookup_fmap, list_lookup_imap.
    by destruct (work_list !! i).
Qed.

(** ** The caller's heap *)

(** Reading the result messages makes one new object per message and leaves
    the objects the caller already had as they were. *)
Lemma unpickle_all_spec (rs : list dict) (σ : state) :
  ∃ ls σ', unpickle_all rs σ = (inr ls, σ')
    ∧ Forall2 (λ l r, heap σ' !! l = Some r) ls rs
    ∧ NoDup ls
    ∧ (∀ l, l ∈ ls → heap σ !! l = None)
    ∧ (∀ l d, heap σ !! l = Some d → heap σ' !! l = Some d).
Proof.
  revert σ. induction rs as [|r rs IH]; intros σ.
  - exists [], σ. repeat split; try done; [constructor|].
    intros l Hl. by apply not_elem_of_nil in Hl.
  - simpl. unfold mbind, M_bind, unpickle at 1.
    set (l0 := fresh (dom (heap σ))).
    assert (heap σ !! l0 = None) as Hfresh.
    { apply not_elem_of_dom. apply is_fresh. }
    set (σ1 := State _ _).
    destruct (IH σ1) as (ls & σ' & -> & Hrs & Hnd & Hnew & Hold).
    assert (heap σ1 !! l0 = Some r) as Hl0 by apply lookup_insert_eq.
    exists (l0 :: ls), σ'. split; [done|]. split; [|split; [|split]].
    + constructor; [by apply Hold|done].
    + constructor; [|done]. intros Hin. apply Hnew in Hin. congruence.
    + intros l [->|Hin]%elem_of_cons; [done|].
      apply Hnew in Hin. subst σ1. simpl in Hin.
      by apply lookup_insert_None in Hin as [? _].
    + intros l d Hl. apply Hold. subst σ1. simpl.
      rewrite lookup_insert_ne; [done|]. congruence.
Qed.

(** * The claims of the design document *)

(** ** One result per submitted item *)

(** C1, as stated, does not hold: the run over the single item UNKNOWN/x
    meets no unavailable worker and returns no TaskResult at all. *)
Lemma executor_map_count_unknown :
  ¬ (∀ (cfg : config) (sched : list nat) (items : list WorkItem)
       (o : exn + list dict),
       executor_map cfg ENGINES sched (item_dict <$> items) = Some o →
       ∃ rs, o = inr rs ∧ length rs = length items).
Proof.
  intros H.
  destruct (H cfg1 [0; 0] [mkWorkItem "UNKNOWN" "x"]
              (inl (KeyError "UNKNOWN"))) as (rs & Hrs & _).
  - compute_done.
  - discriminate Hrs.
Qed.

(** C1, amended: for every finite sequence of WorkItems whose engine
    identifiers are all registered, repeated pairs included, a pool with at
    least one worker completes the run, and every complete run returns
    exactly one TaskResult per submitted item: as many results as items, and
    each item's result as many times as the item was submitted.  In the
    calling process the results are as many distinct dict objects, also when
    the work list names one dict several times. *)
Theorem executor_map_count (cfg : config) (items : list WorkItem) :
  Forall (λ it, is_Some (ENGINES !! engine_id it)) items →
  (0 < max_workers cfg →
   ∃ sched, is_Some (executor_map cfg ENGINES sched (item_dict <$> items)))
  ∧ (∀ sched o,
       executor_map cfg ENGINES sched (item_dict <$> items) = Some o →
       ∃ rs, o = inr rs
         ∧ length rs = length items
         ∧ rs ≡ₚ result_of <$> items)
  ∧ (∀ sched (work_list : list loc) (σ σ' : state) (r : exn + list loc),
       Forall2 (λ l it, heap σ !! l = Some (item_dict it)) work_list items →
       main_block cfg ENGINES sched work_list σ = Some (r, σ') →
       ∃ results, r = inr results
         ∧ length results = length items
         ∧ NoDup results
         ∧ Forall2 (λ l it, heap σ' !! l = Some (result_of it)) results items).
Proof.
  intros Hreg. split; [|split].
  - intros Hn. exists (solo (length (item_dict <$> items))).
    by rewrite executor_map_solo.
  - intros sched o Ho.
    apply (executor_map_registered _ _ _ _ Hreg) in Ho as ->.
    exists (result_of <$> items). by rewrite length_fmap.
  - intros sched work_list σ σ' r Hwl. unfold main_block, pickle.
    rewrite (mapM_Some_2 _ _ (item_dict <$> items)) by by apply Forall2_fmap_r.
    destruct (executor_map cfg ENGINES sched (item_dict <$> items))
      as [o|] eqn:Ho; [|done].
    apply (executor_map_registered _ _ _ _ Hreg) in Ho as ->.
    destruct (unpickle_all_spec (result_of <$> items) σ)
      as (ls & σ1 & -> & Hrs & Hnd & _). intros [= <- <-].
    apply Forall2_fmap_r in Hrs.
    exists ls. split; [done|]. split; [by eapply Forall2_length|done].
Qed.

Lemma executor_map_count_witness :
  ∃ rs, executor_map cfg2 ENGINES (solo 20) (item_dict <$> work20) = Some (inr rs)
    ∧ length rs = 20
    ∧ rs ≡ₚ replicate 20 (result_of (mkWorkItem "ILAMB" "nbp")).
Proof.
  assert (Forall (λ it, is_Some (ENGINES !! engine_id it)) work20) as Hreg.
  { apply Forall_replicate. eexists. reflexivity. }
  assert (executor_map cfg2 ENGINES (solo 20) (item_dict <$> work20)
          = Some (inr (result_of <$> work20))) as Ho by compute_done.
  destruct (executor_map_count cfg2 work20 Hreg) as (_ & Hall & _).
  destruct (Hall (solo 20) _ Ho) as (rs & Hrs & Hlen & Hperm).
  exists rs. split; [congruence|]. split; [exact Hlen|exact Hperm].
Defined.

(** ** An engine nobody registered *)

(** C2, as stated, does not hold: the call on the item UNKNOWN/x, whose
    engine [ENGINES] does not have, returns no TaskResult. *)
Lemma unknown_engine_no_result :
  ¬ (∀ (w : worker) (l : loc) (σ : state) (it : WorkItem),
       ENGINES !! engine_id it = None →
       heap σ !! l = Some (item_dict it) →
       ∃ l' σ', perform_work w l σ = (inr l', σ')).
Proof.
  intros H.
  destruct (H (Worker 0 1 "node0") 0
              (State {[ 0 := item_dict (mkWorkItem "UNKNOWN" "x") ]} [])
              (mkWorkItem "UNKNOWN" "x"))
    as (l' & σ' & Hrun); [reflexivity..|].
  vm_compute in Hrun. discriminate Hrun.
Qed.

(** C2, amended: for an item whose engine identifier the registry does not
    have, the call writes its trace line and then raises [KeyError] with that
    identifier, returning nothing and leaving the dict unchanged.  The worker
    and the pool go on: in a complete run every other item's future holds
    what its own call delivers, the item's future holds the [KeyError], and
    collecting the results raises instead of returning a sequence. *)
Theorem perform_work_unknown_engine (reg : gmap string engine) (d : dict)
    (e b : string) :
  d !! "engine" = Some e → d !! "benchmark" = Some b →
  reg !! e = None →
  (∀ (w : worker) (l : loc) (σ : state),
     heap σ !! l = Some d →
     perform_work_with reg w l σ
     = (inl (KeyError e),
        State (heap σ)
              (log σ ++ [trace_line b e (Get_rank w) (Get_size w)
                                    (Get_processor_name w)])))
  ∧ (∀ (cfg : config) (sched : list nat) (wl : list dict) (i : nat)
       (done : list (nat * (exn + dict))) (o : exn + list dict),
       wl !! i = Some d →
       arrivals cfg reg sched wl = Some done →
       executor_map cfg reg sched wl = Some o →
       (i, inl (KeyError e)) ∈ done
       ∧ (∀ j d', wl !! j = Some d' → (j, executed reg d') ∈ done)
       ∧ ∃ x', o = inl x').
Proof.
  intros He Hb Hreg.
  pose proof (executed_unregistered reg d e b He Hb Hreg) as Hex.
  split.
  - intros w l σ Hl.
    rewrite (perform_work_with_eq _ _ _ _ _ Hl), Hex.
    by rewrite (emitted_item _ _ _ _ He Hb).
  - intros cfg sched wl i done o Hi Hdone Ho. split; [|split].
    + rewrite <- Hex. by eapply arrivals_future.
    + intros j d' Hj. by eapply arrivals_future.
    + by eapply executor_map_raises.
Qed.

Lemma perform_work_unknown_engine_witness :
  arrivals cfg2 ENGINES [0; 1; 1; 1; 0; 1] work_unknown = Some arrived_unknown
  ∧ executor_map cfg2 ENGINES [0; 1; 1; 1; 0; 1] work_unknown
    = Some (inl (KeyError "UNKNOWN"))
  ∧ (2, inl (KeyError "UNKNOWN")) ∈ arrived_unknown
  ∧ (0, executed ENGINES (item_dict (mkWorkItem "PMP" "AMOC"))) ∈ arrived_unknown.
Proof.
  assert (arrivals cfg2 ENGINES [0; 1; 1; 1; 0; 1] work_unknown
          = Some arrived_unknown) as Hdone by compute_done.
  assert (executor_map cfg2 ENGINES [0; 1; 1; 1; 0; 1] work_unknown
          = Some (inl (KeyError "UNKNOWN"))) as Ho by compute_done.
  split; [exact Hdone|]. split; [exact Ho|].
  destruct (perform_work_unknown_engine ENGINES
              (item_dict (mkWorkItem "UNKNOWN" "x")) "UNKNOWN" "x")
    as [_ Hpool]; [reflexivity..|].
  destruct (Hpool cfg2 [0; 1; 1; 1; 0; 1] work_unknown 2 arrived_unknown
              (inl (KeyError "UNKNOWN")))
    as (H1 & H2 & _); [reflexivity|exact Hdone|exact Ho|].
  split; [exact H1|].
  apply (H2 0 (item_dict (mkWorkItem "PMP" "AMOC"))). reflexivity.
Defined.

(** ** An engine that raises *)

(** C3, as stated, does not hold: with an engine that raises, the call on
    the item BROKEN/x returns nothing, the fault leaves [perform_work]. *)
Lemma engine_fault_not_wrapped :
  ¬ (∀ (reg : gmap string engine) (w : worker) (l : loc) (σ : state)
       (d : dict) (e b : string) (f : engine) (x : exn),
       heap σ !! l = Some d →
       d !! "engine" = Some e → d !! "benchmark" = Some b →
       reg !! e = Some f → f b = inl x →
       ∃ l' σ', perform_work_with reg w l σ = (inr l', σ')).
Proof.
  intros H.
  destruct (H ENGINES_broken (Worker 0 1 "node0") 0
              (State {[ 0 := item_dict (mkWorkItem "BROKEN" "x") ]} [])
              (item_dict (mkWorkItem "BROKEN" "x")) "BROKEN" "x"
              engine_broken (EngineFault "boom"))
    as (l' & σ' & Hrun); [reflexivity..|].
  vm_compute in Hrun. discriminate Hrun.
Qed.

(** C3, amended: when the engine behaviour of an item raises, the call
    writes its trace line and then raises that same fault, unwrapped, with the
    dict unchanged.  The worker and the pool go on: in a complete run the
    fault is what the item's future holds, every other item's future holds
    what its own call delivers, and collecting the results raises.  The
    three engines of [ENGINES] never raise. *)
Theorem perform_work_engine_fault (reg : gmap string engine) (d : dict)
    (e b : string) (f : engine) (x : exn) :
  d !! "engine" = Some e → d !! "benchmark" = Some b →
  reg !! e = Some f → f b = inl x →
  (∀ (w : worker) (l : loc) (σ : state),
     heap σ !! l = Some d →
     perform_work_with reg w l σ
     = (inl x,
        State (heap σ)
              (log σ ++ [trace_line b e (Get_rank w) (Get_size w)
                                    (Get_processor_name w)])))
  ∧ (∀ (cfg : config) (sched : list nat) (wl : list dict) (i : nat)
       (done : list (nat * (exn + dict))) (o : exn + list dict),
       wl !! i = Some d →
       arrivals cfg reg sched wl = Some done →
       executor_map cfg reg sched wl = Some o →
       (i, inl x) ∈ done
       ∧ (∀ j d', wl !! j = Some d' → (j, executed reg d') ∈ done)
       ∧ ∃ x', o = inl x')
  ∧ (∀ e' f' b', ENGINES !! e' = Some f' → ∃ out, f' b' = inr out).
Proof.
  intros He Hb Hreg Hf.
  pose proof (executed_fault reg d e b f x He Hb Hreg Hf) as Hex.
  split; [|split].
  - intros w l σ Hl.
    rewrite (perform_work_with_eq _ _ _ _ _ Hl), Hex.
    by rewrite (emitted_item _ _ _ _ He Hb).
  - intros cfg sched wl i done o Hi Hdone Ho. split; [|split].
    + rewrite <- Hex. by eapply arrivals_future.
    + intros j d' Hj. by eapply arrivals_future.
    + by eapply executor_map_raises.
  - intros e' f' b' Hf'. exists "_results_". by eapply ENGINES_constant.
Qed.

Lemma perform_work_engine_fault_witness :
  perform_work_with ENGINES_broken (Worker 0 1 "node0") 0
    (State {[ 0 := item_dict (mkWorkItem "BROKEN" "x") ]} [])
  = (inl (EngineFault "boom"),
     State {[ 0 := item_dict (mkWorkItem "BROKEN" "x") ]}
           ["   x     BROKEN   0 of   1 node0"]).
Proof.
  apply (perform_work_engine_fault ENGINES_broken
           (item_dict (mkWorkItem "BROKEN" "x")) "BROKEN" "x"
           engine_broken (EngineFault "boom"));
    reflexivity.
Defined.

(** ** Results answer items *)

(** C4: in every run that returns, the (engine, benchmark) pairs of the
    returned TaskResults are, as a multiset, the pairs of the submitted
    WorkItems, whether the results are taken as [executor.map] yields them or
    in the order they arrived; each result carries the fields of the item it
    answers. *)
Theorem results_answer_items (cfg : config) (reg : gmap string engine)
    (sched : list nat) (items : list WorkItem) (rs : list dict) :
  executor_map cfg reg sched (item_dict <$> items) = Some (inr rs) →
  pair_of <$> rs
    ≡ₚ (λ it, (Some (engine_id it), Some (benchmark_id it))) <$> items
  ∧ Forall2 (λ it r, r !! "engine" = Some (engine_id it)
                     ∧ r !! "benchmark" = Some (benchmark_id it)) items rs
  ∧ ∀ done, arrivals cfg reg sched (item_dict <$> items) = Some done →
      omap answered done
      ≡ₚ (λ it, (Some (engine_id it), Some (benchmark_id it))) <$> items.
Proof.
  intros Ho. apply executor_map_any_schedule in Ho. symmetry in Ho.
  apply all_or_first_inr in Ho.
  assert (Forall2 (λ it r, executed reg (item_dict it) = inr r) items rs) as Hex.
  { clear -Ho. revert rs Ho.
    induction items as [|it items IH]; intros [|r rs] Ho; simplify_eq/=; eauto. }
  assert (Forall2 (λ it r, r !! "engine" = Some (engine_id it)
                           ∧ r !! "benchmark" = Some (benchmark_id it)) items rs)
    as Hfields.
  { eapply Forall2_impl; [exact Hex|]. intros it r Hr. cbv beta in *.
    rewrite (executed_fields reg _ _ "engine" Hr) by done.
    rewrite (executed_fields reg _ _ "benchmark" Hr) by done.
    by rewrite item_dict_engine, item_dict_benchmark. }
  assert (pair_of <$> rs
          = (λ it, (Some (engine_id it), Some (benchmark_id it))) <$> items)
    as Hpairs.
  { clear -Hfields. induction Hfields as [|it r items rs [He Hb] _ IH];
      [done|]. csimpl. unfold pair_of at 1. by rewrite IH, He, Hb. }
  split; [by rewrite Hpairs|]. split; [done|].
  intros done Hdone. apply arrivals_any_schedule in Hdone.
  rewrite Hdone, <- Hpairs. unfold deliveries.
  by rewrite <- (omap_answered reg _ rs 0 Ho).
Qed.

Lemma results_answer_items_witness :
  pair_of <$> (result_of <$> items3)
  ≡ₚ [ (Some "PMP", Some "AMOC"); (Some "ESMValTool", Some "TCRE");
       (Some "ILAMB", Some "nbp") ].
Proof.
  apply (results_answer_items cfg2 ENGINES [0; 1; 1; 1; 0; 1] items3
           (result_of <$> items3)).
  compute_done.
Defined.

(** ** The submitted dict *)

(** C5, as stated, does not hold: after a call on the item PMP/AMOC the dict
    that was submitted is no longer the item, it has gained a field. *)
Lemma perform_work_updates_item :
  ¬ (∀ (w : worker) (l : loc) (σ : state) (it : WorkItem),
       heap σ !! l = Some (item_dict it) →
       heap (perform_work w l σ).2 !! l = Some (item_dict it)).
Proof.
  intros H.
  specialize (H (Worker 0 1 "node0") 0
                (State {[ 0 := item_dict (mkWorkItem "PMP" "AMOC") ]} [])
                (mkWorkItem "PMP" "AMOC") eq_refl).
  apply (f_equal (λ o : option dict, o ≫= (.!! "output"))) in H.
  vm_compute in H. discriminate H.
Qed.

(** C5, amended: a call never changes a field of the submitted dict other
    than "output" and touches no other object; when the engine returns, the
    call sets "output" in the dict it was given and returns that very dict;
    when the call raises, the dict is as it was.  The coordinator sends the
    workers copies: after the main block every dict of the calling process
    is as it was, and the results are objects that were not there before. *)
Theorem perform_work_frame (reg : gmap string engine) (σ : state) (l : loc)
    (d : dict) :
  heap σ !! l = Some d →
  (∀ (w : worker),
     (∀ l', l' ≠ l → heap (perform_work_with reg w l σ).2 !! l' = heap σ !! l')
     ∧ ∃ d', heap (perform_work_with reg w l σ).2 !! l = Some d'
         ∧ (∀ k, k ≠ "output" → d' !! k = d !! k)
         ∧ match (perform_work_with reg w l σ).1 with
           | inr l' => l' = l ∧ is_Some (d' !! "output")
           | inl _ => d' = d
           end)
  ∧ (∀ (cfg : config) (sched : list nat) (work_list : list loc)
       (r : exn + list loc) (σ' : state),
       main_block cfg reg sched work_list σ = Some (r, σ') →
       heap σ' !! l = Some d
       ∧ match r with
         | inr results => l ∉ results
         | inl _ => σ' = σ
         end).
Proof.
  intros Hl. split.
  - intros w. rewrite (perform_work_with_eq _ _ _ _ _ Hl).
    destruct (executed reg d) as [x|r] eqn:Hex; simpl.
    + split; [done|]. by exists d.
    + split; [by intros l' Hne; rewrite lookup_insert_ne|].
      exists r. rewrite lookup_insert_eq. split; [done|]. split.
      * intros k Hk. by eapply executed_fields.
      * split; [done|]. apply executed_output in Hex as [out ->].
        rewrite lookup_insert_eq. by eexists.
  - intros cfg sched work_list r σ'. unfold main_block.
    destruct (pickle σ work_list) as [ds|]; [|done].
    destruct (executor_map cfg reg sched ds) as [[x|rs]|]; [| |done].
    + by intros [= <- <-].
    + destruct (unpickle_all_spec rs σ) as (ls & σ1 & -> & _ & _ & Hnew & Hold).
      intros [= <- <-]. split; [by apply Hold|].
      intros Hin. apply Hnew in Hin. congruence.
Qed.

Lemma perform_work_frame_witness :
  (∃ d', heap (perform_work_with ENGINES (Worker 0 1 "node0") 0 heap_shared).2 !! 0
         = Some d'
     ∧ d' !! "engine" = Some "PMP" ∧ d' !! "benchmark" = Some "AMOC")
  ∧ ∃ σ',
      main_block cfg1 ENGINES (solo 3) [0; 1; 0] heap_shared
      = Some (inr [2; 3; 4], σ')
      ∧ heap σ' !! 0 = Some (item_dict (mkWorkItem "PMP" "AMOC"))
      ∧ 0 ∉ [2; 3; 4].
Proof.
  destruct (perform_work_frame ENGINES heap_shared 0
              (item_dict (mkWorkItem "PMP" "AMOC")))
    as [Hcall Hmain]; [reflexivity|]. split.
  - destruct (Hcall (Worker 0 1 "node0")) as (_ & d' & Hd' & Hk & _).
    exists d'. split; [exact Hd'|]. split.
    + rewrite (Hk "engine"); [reflexivity|discriminate].
    + rewrite (Hk "benchmark"); [reflexivity|discriminate].
  - destruct (main_block cfg1 ENGINES (solo 3) [0; 1; 0] heap_shared)
      as [[[x|results] σ']|] eqn:Hrun.
    + vm_compute in Hrun. discriminate Hrun.
    + assert (results = [2; 3; 4]) as Hres.
      { vm_compute in Hrun. injection Hrun as Hr _. symmetry. exact Hr. }
      subst results. exists σ'. split; [reflexivity|].
      exact (Hmain cfg1 (solo 3) [0; 1; 0] (inr [2; 3; 4]) σ' Hrun).
    + vm_compute in Hrun. discriminate Hrun.
Defined.

(** ** A pool of one worker *)

(** C6: with a pool of one worker, what the caller receives is what calling
    [perform_work] on the items one after the other, in submission order and
    in one process, leaves to be read: the same exception, or dicts with the
    same contents in the same order.  The trace lines are not compared. *)
Theorem pool_of_one_sequential (reg : gmap string engine) (cfg : config)
    (w : worker) (σ : state) (ls : list loc) (work_list : list dict) :
  max_workers cfg = 1 →
  Forall2 (λ l d, heap σ !! l = Some d) ls work_list →
  is_Some (executor_map cfg reg (solo (length work_list)) work_list)
  ∧ ∀ sched o,
      executor_map cfg reg sched work_list = Some o →
      sequential_contents reg w ls σ
      = match o with
        | inl x => inl x
        | inr rs => inr (Some <$> rs)
        end.
Proof.
  intros Hone Hheap. split.
  - rewrite executor_map_solo by lia. by eexists.
  - intros sched o Ho. apply executor_map_any_schedule in Ho as ->.
    assert (Forall2 (holds reg σ) ls work_list) as Hholds.
    { eapply Forall2_impl; [exact Hheap|]. intros l d Hl. by left. }
    pose proof (sequential_holds reg w ls work_list σ Hholds) as Hseq.
    unfold sequential_contents.
    destruct (all_or_first (executed reg <$> work_list)) as [x|rs].
    + by destruct Hseq as (σ' & ->).
    + destruct Hseq as (σ' & -> & Hrs & _). f_equal.
      clear -Hrs. induction Hrs as [|l r ls rs Hl _ IH]; [done|].
      csimpl. by rewrite Hl, IH.
Qed.

Lemma pool_of_one_sequential_witness :
  sequential_contents ENGINES (Worker 0 1 "node0") [0; 1; 0] heap_shared
  = inr [ Some (result_of (mkWorkItem "PMP" "AMOC"));
          Some (result_of (mkWorkItem "ILAMB" "nbp"));
          Some (result_of (mkWorkItem "PMP" "AMOC")) ].
Proof.
  destruct (pool_of_one_sequential ENGINES cfg1 (Worker 0 1 "node0")
              heap_shared [0; 1; 0]
              [ item_dict (mkWorkItem "PMP" "AMOC");
                item_dict (mkWorkItem "ILAMB" "nbp");
                item_dict (mkWorkItem "PMP" "AMOC") ])
    as [_ Hall].
  - reflexivity.
  - repeat constructor.
  - rewrite (Hall (solo 3)
               (inr [ result_of (mkWorkItem "PMP" "AMOC");
                      result_of (mkWorkItem "ILAMB" "nbp");
                      result_of (mkWorkItem "PMP" "AMOC") ])).
    + reflexivity.
    + compute_done.
Defined.

(** ** The trace line *)

(** C7: a call on an item writes exactly one trace line, made of the
    benchmark identifier, the engine identifier, the worker's rank, the pool
    size and the host name; what the call returns or raises and what it does
    to the heap depend neither on the worker's identity nor on what has been
    written so far. *)
Theorem perform_work_trace (reg : gmap string engine) (w : worker) (l : loc)
    (σ : state) (d : dict) (e b : string) :
  heap σ !! l = Some d →
  d !! "engine" = Some e →
  d !! "benchmark" = Some b →
  log (perform_work_with reg w l σ).2
  = (log σ ++ [rjust 4 b +:+ " " +:+ rjust 10 e +:+ " " +:+
               rjust 3 (pretty (Get_rank w)) +:+ " of " +:+
               rjust 3 (pretty (Get_size w)) +:+ " " +:+ Get_processor_name w])%list
  ∧ ∀ (w' : worker) (written : list string),
      (perform_work_with reg w' l (State (heap σ) written)).1
      = (perform_work_with reg w l σ).1
      ∧ heap (perform_work_with reg w' l (State (heap σ) written)).2
        = heap (perform_work_with reg w l σ).2.
Proof.
  intros Hl He Hb. split.
  - rewrite (perform_work_with_eq _ _ _ _ _ Hl), (emitted_item _ _ _ _ He Hb).
    by destruct (executed reg d).
  - intros w' written.
    rewrite (perform_work_with_eq reg w' l (State (heap σ) written) d Hl).
    rewrite (perform_work_with_eq reg w l σ d Hl).
    by destruct (executed reg d).
Qed.

Lemma perform_work_trace_witness :
  log (perform_work_with ENGINES (Worker 1 9 "andes18.olcf.ornl.gov") 0
         (State {[ 0 := item_dict (mkWorkItem "PMP" "AMOC") ]} [])).2
  = ["AMOC        PMP   1 of   9 andes18.olcf.ornl.gov"].
Proof.
  apply (perform_work_trace ENGINES (Worker 1 9 "andes18.olcf.ornl.gov") 0
           (State {[ 0 := item_dict (mkWorkItem "PMP" "AMOC") ]} [])
           (item_dict (mkWorkItem "PMP" "AMOC")) "PMP" "AMOC");
    reflexivity.
Defined.

(** ** Running twice *)

(** C8: two runs of one work list, each through a pool and a registry of
    its own making, under any two schedules, pool sizes and host names, end
    with the same multiset of (engine, benchmark, success or failure kind);
    the values the engines return may differ from one run to the other. *)
Theorem rerun_same_composition (reg reg' : gmap string engine)
    (cfg cfg' : config) (sched sched' : list nat) (work_list : list dict)
    (done done' : list (nat * (exn + dict))) :
  same_kinds reg reg' →
  arrivals cfg reg sched work_list = Some done →
  arrivals cfg' reg' sched' work_list = Some done' →
  composition work_list <$> done ≡ₚ composition work_list <$> done'.
Proof.
  intros Hk Hd Hd'.
  apply arrivals_any_schedule in Hd, Hd'.
  rewrite Hd, Hd'. unfold deliveries. rewrite !fmap_imap.
  erewrite imap_ext; [done|].
  intros i d _. unfold composition. simpl.
  by rewrite (executed_same_kinds reg reg' d Hk).
Qed.

Lemma rerun_same_composition_witness :
  composition work_unknown <$> arrived_unknown
  ≡ₚ composition work_unknown <$> arrived_rerun.
Proof.
  apply (rerun_same_composition ENGINES ENGINES_rerun cfg2 cfg3
           [0; 1; 1; 1; 0; 1] [0; 1; 2; 0; 2; 1] work_unknown
           arrived_unknown arrived_rerun).
  - exact same_kinds_rerun.
  - compute_done.
  - compute_done.
Defined.

(** ** Submission order *)

(** C9: for every finite sequence of WorkItems whose engine identifiers are
    all registered, what [executor.map] hands to the caller is in submission
    order: the i-th result has the engine and the benchmark of the i-th
    item. *)
Theorem executor_map_order (cfg : config) (sched : list nat)
    (items : list WorkItem) (o : exn + list dict) :
  Forall (λ it, is_Some (ENGINES !! engine_id it)) items →
  executor_map cfg ENGINES sched (item_dict <$> items) = Some o →
  ∃ rs, o = inr rs
    ∧ ∀ i it, items !! i = Some it →
        ∃ r, rs !! i = Some r
          ∧ r !! "engine" = Some (engine_id it)
          ∧ r !! "benchmark" = Some (benchmark_id it).
Proof.
  intros Hreg Ho.
  apply (executor_map_registered _ _ _ _ Hreg) in Ho as ->.
  exists (result_of <$> items). split; [done|].
  intros i it Hi. exists (result_of it).
  rewrite list_lookup_fmap, Hi.
  by rewrite result_of_engine, result_of_benchmark.
Qed.

Lemma executor_map_order_witness :
  (λ l, l.*1) <$> arrivals cfg2 ENGINES [0; 1; 1; 1; 0; 1] (item_dict <$> items3)
  = Some [1; 0; 2]
  ∧ ∃ rs, executor_map cfg2 ENGINES [0; 1; 1; 1; 0; 1] (item_dict <$> items3)
          = Some (inr rs)
      ∧ ∃ r, rs !! 1 = Some r
          ∧ r !! "engine" = Some "ESMValTool" ∧ r !! "benchmark" = Some "TCRE".
Proof.
  split; [compute_done|].
  assert (Forall (λ it, is_Some (ENGINES !! engine_id it)) items3) as Hreg.
  { repeat constructor; eexists; reflexivity. }
  assert (executor_map cfg2 ENGINES [0; 1; 1; 1; 0; 1] (item_dict <$> items3)
          = Some (inr (result_of <$> items3))) as Ho by compute_done.
  destruct (executor_map_order cfg2 _ items3 _ Hreg Ho) as (rs & Hrs & Hall).
  exists rs. split; [congruence|].
  apply (Hall 1 (mkWorkItem "ESMValTool" "TCRE")). reflexivity.
Defined.

(** ** The registered engines are constant *)

(** C10: for an item whose engine is "ILAMB", "PMP" or "ESMValTool", and any
    benchmark string, [perform_work] returns the item's dict with the field
    "output" set to "_results_" and no field "error": the three registered
    behaviours return the same constant for every benchmark. *)
Theorem perform_work_registered (w : worker) (l : loc) (σ : state) (it : WorkItem) :
  engine_id it = "ILAMB" ∨ engine_id it = "PMP" ∨ engine_id it = "ESMValTool" →
  heap σ !! l = Some (item_dict it) →
  (∃ σ' r, perform_work w l σ = (inr l, σ')
     ∧ heap σ' !! l = Some r
     ∧ r !! "output" = Some "_results_"
     ∧ r !! "error" = None
     ∧ r !! "engine" = Some (engine_id it)
     ∧ r !! "benchmark" = Some (benchmark_id it))
  ∧ (∀ b, engine_ilamb b = inr "_results_")
  ∧ (∀ b, engine_pmp b = inr "_results_")
  ∧ (∀ b, engine_esmvaltool b = inr "_results_").
Proof.
  intros He Hl. split; [|done].
  apply ENGINES_dom in He.
  unfold perform_work. rewrite (perform_work_with_eq _ _ _ _ _ Hl).
  rewrite (executed_registered it He).
  eexists _, (result_of it). split; [done|]. simpl.
  rewrite lookup_insert_eq. split; [done|].
  rewrite result_of_engine, result_of_benchmark. unfold result_of.
  rewrite lookup_insert_eq, !lookup_insert_ne by done.
  unfold item_dict. by rewrite !lookup_insert_ne, lookup_empty.
Qed.

Lemma perform_work_registered_witness :
  ∃ σ' r, perform_work (Worker 3 9 "andes18") 0
            (State {[ 0 := item_dict (mkWorkItem "ILAMB" "nbp") ]} [])
          = (inr 0, σ')
    ∧ heap σ' !! 0 = Some r
    ∧ r !! "output" = Some "_results_"
    ∧ r !! "error" = None.
Proof.
  destruct (perform_work_registered (Worker 3 9 "andes18") 0
              (State {[ 0 := item_dict (mkWorkItem "ILAMB" "nbp") ]} [])
              (mkWorkItem "ILAMB" "nbp"))
    as [(σ' & r & H1 & H2 & H3 & H4 & _) _].
  - left. reflexivity.
  - reflexivity.
  - exists σ', r. auto.
Defined.

(** * Further properties of the code *)

(** ** Dicts that are no WorkItems *)

(** X1: on a dict without the field "benchmark" the call raises
    [KeyError] for "benchmark", whatever else the dict holds and whatever the
    registry: the f-string reads that field before anything is written, so no
    line is written and nothing is changed. *)
Theorem perform_work_missing_benchmark (reg : gmap string engine) (w : worker)
    (l : loc) (σ : state) (d : dict) :
  heap σ !! l = Some d →
  d !! "benchmark" = None →
  perform_work_with reg w l σ = (inl (KeyError "benchmark"), σ).
Proof.
  intros Hl Hb. rewrite (perform_work_with_eq _ _ _ _ _ Hl).
  unfold executed, emitted. rewrite Hb.
  by rewrite app_nil_r, state_eta.
Qed.

Lemma perform_work_missing_benchmark_witness :
  perform_work_with ENGINES (Worker 0 1 "node0") 0
    (State {[ 0 := {[ "engine" := "NOWHERE" ]} ]} ["earlier line"])
  = (inl (KeyError "benchmark"),
     State {[ 0 := {[ "engine" := "NOWHERE" ]} ]} ["earlier line"]).
Proof.
  apply (perform_work_missing_benchmark ENGINES (Worker 0 1 "node0") 0
           (State {[ 0 := {[ "engine" := "NOWHERE" ]} ]} ["earlier line"])
           {[ "engine" := "NOWHERE" ]});
    reflexivity.
Defined.

(** X2: on a dict that has "benchmark" and lacks "engine" the call raises
    [KeyError] for "engine" while the trace line is being built: no line is
    written, no engine is looked up and nothing is changed. *)
Theorem perform_work_missing_engine (reg : gmap string engine) (w : worker)
    (l : loc) (σ : state) (d : dict) (b : string) :
  heap σ !! l = Some d →
  d !! "benchmark" = Some b →
  d !! "engine" = None →
  perform_work_with reg w l σ = (inl (KeyError "engine"), σ).
Proof.
  intros Hl Hb He. rewrite (perform_work_with_eq _ _ _ _ _ Hl).
  unfold executed, emitted. rewrite Hb, He.
  by rewrite app_nil_r, state_eta.
Qed.

Lemma perform_work_missing_engine_witness :
  perform_work_with ENGINES (Worker 0 1 "node0") 0
    (State {[ 0 := {[ "benchmark" := "AMOC" ]} ]} [])
  = (inl (KeyError "engine"), State {[ 0 := {[ "benchmark" := "AMOC" ]} ]} []).
Proof.
  apply (perform_work_missing_engine ENGINES (Worker 0 1 "node0") 0
           (State {[ 0 := {[ "benchmark" := "AMOC" ]} ]} [])
           {[ "benchmark" := "AMOC" ]} "AMOC");
    reflexivity.
Defined.

(** ** What a call that returns has done *)

(** X3: with any registry, when the engine of the dict's "engine" field
    returns [out] on the dict's "benchmark" field, the call returns the
    reference it was given, sets "output" to [out] in that dict, a former
    "output" being replaced and every other field kept, writes one line and
    changes nothing else. *)
Theorem perform_work_stores_output (reg : gmap string engine) (w : worker)
    (l : loc) (σ : state) (d : dict) (e b out : string) (f : engine) :
  heap σ !! l = Some d →
  d !! "engine" = Some e →
  d !! "benchmark" = Some b →
  reg !! e = Some f →
  f b = inr out →
  perform_work_with reg w l σ
  = (inr l,
     State (<[l := <["output" := out]> d]> (heap σ))
           (log σ ++ [trace_line b e (Get_rank w) (Get_size w)
                                 (Get_processor_name w)]))
  ∧ dom (<["output" := out]> d) = {["output"]} ∪ dom d.
Proof.
  intros Hl He Hb Hreg Hf. split; [|by rewrite dom_insert_L].
  rewrite (perform_work_with_eq _ _ _ _ _ Hl), (emitted_item _ _ _ _ He Hb).
  unfold executed. by rewrite Hb, He, Hreg, Hf.
Qed.

Lemma perform_work_stores_output_witness :
  perform_work_with ENGINES_rerun (Worker 0 1 "node0") 0
    (State {[ 0 := <["output" := "stale"]> (item_dict (mkWorkItem "ILAMB" "nbp")) ]} [])
  = (inr 0,
     State {[ 0 := <["output" := "_results_2_"]> (item_dict (mkWorkItem "ILAMB" "nbp")) ]}
           [" nbp      ILAMB   0 of   1 node0"]).
Proof.
  destruct (perform_work_stores_output ENGINES_rerun (Worker 0 1 "node0") 0
              (State {[ 0 := <["output" := "stale"]>
                               (item_dict (mkWorkItem "ILAMB" "nbp")) ]} [])
              (<["output" := "stale"]> (item_dict (mkWorkItem "ILAMB" "nbp")))
              "ILAMB" "nbp" "_results_2_" engine_ilamb_rerun)
    as [Hrun _]; [reflexivity..|].
  rewrite Hrun. reflexivity.
Defined.

(** ** Calls one after the other *)

(** X4: a second call on the same dict, by any worker, returns or raises
    what the first did and leaves the heap as the first left it: an engine
    sees the same benchmark again and "output" is set to the same value. *)
Theorem perform_work_twice (reg : gmap string engine) (w w' : worker)
    (l : loc) (σ : state) (d : dict) :
  heap σ !! l = Some d →
  (perform_work_with reg w' l (perform_work_with reg w l σ).2).1
  = (perform_work_with reg w l σ).1
  ∧ heap (perform_work_with reg w' l (perform_work_with reg w l σ).2).2
    = heap (perform_work_with reg w l σ).2.
Proof.
  intros Hl. rewrite (perform_work_with_eq reg w l σ d Hl).
  destruct (executed reg d) as [x|r] eqn:Hex; simpl.
  - rewrite (perform_work_with_eq reg w' l _ d) by exact Hl. by rewrite Hex.
  - rewrite (perform_work_with_eq reg w' l _ r) by apply lookup_insert_eq.
    rewrite (executed_again reg d r Hex). simpl.
    by rewrite insert_insert_eq.
Qed.

Lemma perform_work_twice_witness :
  heap (perform_work (Worker 1 2 "node1") 0
          (perform_work (Worker 0 2 "node0") 0
             (State {[ 0 := item_dict (mkWorkItem "PMP" "AMOC") ]} [])).2).2
  = heap (perform_work (Worker 0 2 "node0") 0
            (State {[ 0 := item_dict (mkWorkItem "PMP" "AMOC") ]} [])).2.
Proof.
  apply (perform_work_twice ENGINES (Worker 0 2 "node0") (Worker 1 2 "node1") 0
           (State {[ 0 := item_dict (mkWorkItem "PMP" "AMOC") ]} [])
           (item_dict (mkWorkItem "PMP" "AMOC"))).
  reflexivity.
Defined.

(** X5: calls on two different dicts do not interfere.  Made in either
    order, each returns or raises the same, the heap ends the same, and the
    same lines are written, in the order of the calls. *)
Theorem perform_work_commute (reg : gmap string engine) (w1 w2 : worker)
    (l1 l2 : loc) (σ : state) (d1 d2 : dict) :
  l1 ≠ l2 →
  heap σ !! l1 = Some d1 →
  heap σ !! l2 = Some d2 →
  (perform_work_with reg w2 l2 (perform_work_with reg w1 l1 σ).2).1
  = (perform_work_with reg w2 l2 σ).1
  ∧ (perform_work_with reg w1 l1 (perform_work_with reg w2 l2 σ).2).1
    = (perform_work_with reg w1 l1 σ).1
  ∧ heap (perform_work_with reg w2 l2 (perform_work_with reg w1 l1 σ).2).2
    = heap (perform_work_with reg w1 l1 (perform_work_with reg w2 l2 σ).2).2
  ∧ log (perform_work_with reg w2 l2 (perform_work_with reg w1 l1 σ).2).2
    ≡ₚ log (perform_work_with reg w1 l1 (perform_work_with reg w2 l2 σ).2).2.
Proof.
  intros Hne Hl1 Hl2.
  rewrite (perform_work_with_eq reg w1 l1 σ d1 Hl1).
  rewrite (perform_work_with_eq reg w2 l2 σ d2 Hl2).
  destruct (executed reg d1) as [x1|r1] eqn:Hex1,
           (executed reg d2) as [x2|r2] eqn:Hex2; simpl.
  - rewrite (perform_work_with_eq reg w2 l2 _ d2) by exact Hl2. rewrite Hex2.
    rewrite (perform_work_with_eq reg w1 l1 _ d1) by exact Hl1. rewrite Hex1. simpl.
    repeat split. rewrite <- !app_assoc.
    apply Permutation_app_head, Permutation_app_comm.
  - rewrite (perform_work_with_eq reg w2 l2 _ d2) by exact Hl2. rewrite Hex2.
    rewrite (perform_work_with_eq reg w1 l1 _ d1)
      by (simpl; by rewrite lookup_insert_ne).
    rewrite Hex1. simpl.
    repeat split. rewrite <- !app_assoc.
    apply Permutation_app_head, Permutation_app_comm.
  - rewrite (perform_work_with_eq reg w2 l2 _ d2)
      by (simpl; by rewrite lookup_insert_ne).
    rewrite Hex2.
    rewrite (perform_work_with_eq reg w1 l1 _ d1) by exact Hl1. rewrite Hex1. simpl.
    repeat split. rewrite <- !app_assoc.
    apply Permutation_app_head, Permutation_app_comm.
  - rewrite (perform_work_with_eq reg w2 l2 _ d2)
      by (simpl; by rewrite lookup_insert_ne).
    rewrite Hex2.
    rewrite (perform_work_with_eq reg w1 l1 _ d1)
      by (simpl; by rewrite lookup_insert_ne).
    rewrite Hex1. simpl.
    repeat split.
    + apply insert_insert_ne. congruence.
    + rewrite <- !app_assoc.
      apply Permutation_app_head, Permutation_app_comm.
Qed.

Lemma perform_work_commute_witness :
  heap (perform_work (Worker 1 2 "node1") 1
          (perform_work (Worker 0 2 "node0") 0 heap_shared).2).2
  = heap (perform_work (Worker 0 2 "node0") 0
            (perform_work (Worker 1 2 "node1") 1 heap_shared).2).2.
Proof.
  apply (perform_work_commute ENGINES (Worker 0 2 "node0") (Worker 1 2 "node1")
           0 1 heap_shared
           (item_dict (mkWorkItem "PMP" "AMOC"))
           (item_dict (mkWorkItem "ILAMB" "nbp"))).
  - discriminate.
  - reflexivity.
  - reflexivity.
Defined.

(** ** The layout of the trace line *)

Lemma string_length_app (s1 s2 : string) :
  String.length (s1 +:+ s2) = String.length s1 + String.length s2.
Proof. induction s1 as [|a s1 IH]; simpl; [done|]. by rewrite IH. Qed.

Lemma spaces_length (n : nat) : String.length (spaces n) = n.
Proof. induction n as [|n IH]; simpl; [done|]. by rewrite IH. Qed.

Lemma rjust_length (width : nat) (s : string) :
  String.length (rjust width s) = width `max` String.length s.
Proof. unfold rjust. rewrite string_length_app, spaces_length. lia. Qed.

Lemma pretty_length_3 (n : nat) : n < 1000 → String.length (pretty n) ≤ 3.
Proof.
  intros Hn.
  assert (Forall (λ r : nat, String.length (pretty r) ≤ 3) (seq 0 1000)) as Hall
    by compute_done.
  rewrite Forall_forall in Hall. apply Hall, elem_of_seq. lia.
Qed.

(** X6: the trace line is never cut short.  Its length is the sum of the
    five fields, each counted at its minimal width at least (4, 10, 3 and 3
    for benchmark, engine, rank and pool size), and the seven characters
    between them. *)
Theorem trace_line_length (benchmark engine : string) (rank size : nat)
    (name : string) :
  String.length (trace_line benchmark engine rank size name)
  = 4 `max` String.length benchmark + 10 `max` String.length engine
    + 3 `max` String.length (pretty rank) + 3 `max` String.length (pretty size)
    + String.length name + 7.
Proof.
  unfold trace_line. rewrite !string_length_app, !rjust_length. simpl. lia.
Qed.

(** X7: with a benchmark of at most 4 characters, an engine of at most 10
    and a rank and a pool size below 1000, the columns line up: the line is
    27 characters and the host name. *)
Theorem trace_line_fixed_width (benchmark engine : string) (rank size : nat)
    (name : string) :
  String.length benchmark ≤ 4 →
  String.length engine ≤ 10 →
  rank < 1000 → size < 1000 →
  String.length (trace_line benchmark engine rank size name)
  = 27 + String.length name.
Proof.
  intros Hb He Hr Hs. apply pretty_length_3 in Hr, Hs.
  unfold trace_line. rewrite !string_length_app, !rjust_length. simpl. lia.
Qed.

Lemma trace_line_fixed_width_witness :
  String.length (trace_line "nbp" "ILAMB" 7 9 "andes18.olcf.ornl.gov")
  = 27 + String.length "andes18.olcf.ornl.gov".
Proof.
  apply (trace_line_fixed_width "nbp" "ILAMB" 7 9 "andes18.olcf.ornl.gov");
    simpl; lia.
Defined.

(** ** The work list of parse_ref_setup *)

Lemma expand_3x20 {A : Type} (a b c : A) (s : nat) :
  expand [a; b; c] [20; 20; 20] !! s
  = if decide (s < 60) then [a; b; c] !! (s / 20) else None.
Proof.
  assert (expand [a; b; c] [20; 20; 20]
          = (replicate 20 a ++ replicate 20 b ++ replicate 20 c)%list) as ->
    by reflexivity.
  case_decide as Hs.
  - destruct (decide (s < 20)) as [H0|H0].
    + rewrite lookup_app_l by (rewrite length_replicate; lia).
      rewrite lookup_replicate_2 by done.
      by rewrite Nat.div_small.
    + rewrite lookup_app_r by (rewrite length_replicate; lia).
      rewrite length_replicate.
      destruct (decide (s < 40)) as [H1|H1].
      * rewrite lookup_app_l by (rewrite length_replicate; lia).
        rewrite lookup_replicate_2 by lia.
        by rewrite <- (Nat.div_unique s 20 1 (s - 20)) by lia.
      * rewrite lookup_app_r by (rewrite length_replicate; lia).
        rewrite length_replicate, lookup_replicate_2 by lia.
        by rewrite <- (Nat.div_unique s 20 2 (s - 40)) by lia.
  - apply lookup_ge_None. rewrite !length_app, !length_replicate. lia.
Qed.

(** What a call of [parse_ref_setup] that returns has done. *)
Lemma parse_ref_setup_inv (filename : string) (selections : list nat)
    (σ σ' : state) (work_list : list loc) :
  parse_ref_setup filename selections σ = Some (work_list, σ') →
  ∃ l0 l1 l2,
    NoDup [l0; l1; l2]
    ∧ heap σ !! l0 = None ∧ heap σ !! l1 = None ∧ heap σ !! l2 = None
    ∧ σ' = State (<[l2 := item_dict (mkWorkItem "ILAMB" "nbp")]>
                    (<[l1 := item_dict (mkWorkItem "ESMValTool" "TCRE")]>
                       (<[l0 := item_dict (mkWorkItem "PMP" "AMOC")]> (heap σ))))
                 (log σ)
    ∧ is_draw 60 20 selections
    ∧ Forall2 (λ s l, [l0; l1; l2] !! (s / 20) = Some l) selections work_list.
Proof.
  unfold parse_ref_setup, new_dict. cbv beta iota zeta.
  set (l0 := fresh (dom (heap σ))).
  set (h0 := <[l0 := _]> (heap σ)).
  change (heap (State h0 (log σ))) with h0.
  set (l1 := fresh (dom h0)).
  set (h1 := <[l1 := _]> h0).
  change (heap (State h1 _)) with h1.
  set (l2 := fresh (dom h1)).
  assert (heap σ !! l0 = None) as H0 by apply not_elem_of_dom, is_fresh.
  assert (h0 !! l1 = None) as H1 by apply not_elem_of_dom, is_fresh.
  assert (h1 !! l2 = None) as H2 by apply not_elem_of_dom, is_fresh.
  subst h1. apply lookup_insert_None in H2 as [H2 Hne21].
  subst h0. apply lookup_insert_None in H1 as [H1 Hne10].
  apply lookup_insert_None in H2 as [H2 Hne20].
  unfold random_sample. case_decide as Hd; [|done].
  destruct Hd as [_ Hd].
  change (length (expand [l0; l1; l2] [20; 20; 20])) with 60 in Hd.
  destruct (mapM _ selections) as [wl|] eqn:Hm; [|done].
  intros [= <- <-]. exists l0, l1, l2.
  split.
  { apply NoDup_cons. split; [|apply NoDup_cons; split; [|apply NoDup_singleton]].
    - rewrite !elem_of_cons, elem_of_nil. intros [?|[?|[]]]; congruence.
    - rewrite elem_of_cons, elem_of_nil. intros [?|[]]; congruence. }
  do 5 (split; [done|]).
  apply mapM_Some_1 in Hm. destruct Hd as (_ & _ & Hlt).
  clear -Hm Hlt. induction Hm as [|s l sel wl Hs _ IH]; [constructor|].
  apply Forall_cons in Hlt as [Hs60 Hlt].
  constructor; [|by apply IH].
  rewrite expand_3x20 in Hs. by rewrite decide_True in Hs.
Qed.

Lemma parse_ref_setup_draw (filename : string) (selections : list nat)
    (σ : state) :
  is_draw 60 20 selections →
  is_Some (parse_ref_setup filename selections σ).
Proof.
  intros Hd. unfold parse_ref_setup, new_dict. cbv beta iota zeta.
  set (l0 := fresh _). set (l1 := fresh _). set (l2 := fresh _).
  unfold random_sample.
  change (length (expand [l0; l1; l2] [20; 20; 20])) with 60.
  rewrite decide_True by done.
  destruct (mapM_is_Some_2 (λ s, expand [l0; l1; l2] [20; 20; 20] !! s) selections)
    as [wl ->]; [|by eexists].
  destruct Hd as (_ & _ & Hlt).
  eapply Forall_impl; [exact Hlt|]. intros s Hs. simpl.
  rewrite expand_3x20, decide_True by done.
  apply lookup_lt_is_Some. change (s / 20 < 3).
  apply Nat.Div0.div_lt_upper_bound. cbv beta in Hs. lia.
Qed.

Lemma sample_block (l0 l1 l2 l : loc) (h : gmap loc dict) (s : nat) :
  NoDup [l0; l1; l2] →
  [l0; l1; l2] !! (s / 20) = Some l →
  ∃ it, items3 !! (s / 20) = Some it
    ∧ (<[l2 := item_dict (mkWorkItem "ILAMB" "nbp")]>
         (<[l1 := item_dict (mkWorkItem "ESMValTool" "TCRE")]>
            (<[l0 := item_dict (mkWorkItem "PMP" "AMOC")]> h))) !! l
      = Some (item_dict it).
Proof.
  intros Hnd Hl.
  apply NoDup_cons in Hnd as [Hn0 Hnd]. apply NoDup_cons in Hnd as [Hn1 _].
  rewrite !elem_of_cons, elem_of_nil in Hn0.
  rewrite elem_of_cons, elem_of_nil in Hn1.
  destruct (s / 20) as [|[|[|n]]]; simplify_eq/=.
  - eexists. split; [done|].
    rewrite !lookup_insert_ne by naive_solver. apply lookup_insert_eq.
  - eexists. split; [done|].
    rewrite lookup_insert_ne by naive_solver. apply lookup_insert_eq.
  - eexists. split; [done|]. apply lookup_insert_eq.
Qed.

(** X8: for every draw of twenty positions out of sixty,
    [parse_ref_setup] returns, whatever the file name, a list of twenty
    references, the one for position [s] naming a dict that holds the sample
    entry number [s / 20] (PMP/AMOC, ESMValTool/TCRE, ILAMB/nbp); it makes
    three new dicts and leaves the dicts and the lines that were there as
    they were. *)
Theorem parse_ref_setup_entries (filename : string) (selections : list nat)
    (σ : state) :
  is_draw 60 20 selections →
  ∃ work_list σ',
    parse_ref_setup filename selections σ = Some (work_list, σ')
    ∧ length work_list = 20
    ∧ Forall2 (λ s l, ∃ it, items3 !! (s / 20) = Some it
                            ∧ heap σ' !! l = Some (item_dict it))
              selections work_list
    ∧ (∀ l d, heap σ !! l = Some d → heap σ' !! l = Some d)
    ∧ size (heap σ') = size (heap σ) + 3
    ∧ log σ' = log σ.
Proof.
  intros Hd.
  destruct (parse_ref_setup_draw filename selections σ Hd) as [[wl σ'] Hrun].
  exists wl, σ'. split; [done|].
  apply parse_ref_setup_inv in Hrun
    as (l0 & l1 & l2 & Hnd & H0 & H1 & H2 & -> & _ & Hwl).
  assert (l0 ≠ l1 ∧ l0 ≠ l2 ∧ l1 ≠ l2) as (Hn01 & Hn02 & Hn12).
  { apply NoDup_cons in Hnd as [Hn0 Hnd]. apply NoDup_cons in Hnd as [Hn1 _].
    rewrite !elem_of_cons, elem_of_nil in Hn0.
    rewrite elem_of_cons, elem_of_nil in Hn1. naive_solver. }
  split; [|split; [|split; [|split]]].
  - apply Forall2_length in Hwl. destruct Hd as [Hlen _]. congruence.
  - eapply Forall2_impl; [exact Hwl|]. intros s l Hl. simpl.
    by apply sample_block.
  - intros l d Hl. simpl.
    rewrite !lookup_insert_ne by congruence. done.
  - simpl. rewrite !map_size_insert_None; [lia|done|..].
    + by rewrite lookup_insert_ne.
    + by rewrite !lookup_insert_ne.
  - done.
Qed.

Lemma parse_ref_setup_entries_witness :
  ∃ work_list σ',
    parse_ref_setup "ref_setup.yaml" draw_even (State ∅ [])
    = Some (work_list, σ')
    ∧ length work_list = 20.
Proof.
  destruct (parse_ref_setup_entries "ref_setup.yaml" draw_even (State ∅ []))
    as (wl & σ' & Hrun & Hlen & _).
  - compute_done.
  - exists wl, σ'. split; [exact Hrun|exact Hlen].
Defined.

(** X9: the list [parse_ref_setup] returns names at most three different
    dicts, so among its twenty references some dict is named more than
    once. *)
Theorem parse_ref_setup_repeats (filename : string) (selections : list nat)
    (σ σ' : state) (work_list : list loc) :
  parse_ref_setup filename selections σ = Some (work_list, σ') →
  size (list_to_set work_list : gset nat) ≤ 3
  ∧ ¬ NoDup work_list.
Proof.
  intros Hrun. pose proof Hrun as Hinv.
  apply parse_ref_setup_inv in Hinv
    as (l0 & l1 & l2 & Hnd & _ & _ & _ & _ & Hd & Hwl).
  assert (∀ l, l ∈ work_list → l ∈ [l0; l1; l2]) as Hsub.
  { intros l Hl. apply list_elem_of_lookup in Hl as [i Hi].
    destruct (Forall2_lookup_r _ _ _ _ _ Hwl Hi) as (s & _ & Hs).
    apply list_elem_of_lookup. eauto. }
  split.
  - rewrite <- (size_list_to_set (C := gset nat) [l0; l1; l2] Hnd) at 1.
    apply subseteq_size. intros l. rewrite !elem_of_list_to_set. apply Hsub.
  - intros Hnd'. apply (NoDup_submseteq _ _ Hnd') in Hsub.
    apply submseteq_length in Hsub. apply Forall2_length in Hwl.
    destruct Hd as [Hlen _]. simpl in Hsub. lia.
Qed.

Lemma parse_ref_setup_repeats_witness :
  ∃ work_list σ',
    parse_ref_setup "ref_setup.yaml" draw_even (State ∅ [])
    = Some (work_list, σ')
    ∧ ¬ NoDup work_list.
Proof.
  destruct (parse_ref_setup "ref_setup.yaml" draw_even (State ∅ []))
    as [[wl σ']|] eqn:Hrun.
  - exists wl, σ'. split; [reflexivity|].
    apply (parse_ref_setup_repeats "ref_setup.yaml" draw_even (State ∅ []) σ' wl).
    exact Hrun.
  - vm_compute in Hrun. discriminate Hrun.
Defined.

(** ** The module run as a script *)

Lemma items3_registered :
  Forall (λ it, is_Some (ENGINES !! engine_id it)) items3.
Proof. repeat constructor; eexists; reflexivity. Qed.

Lemma sampled_items_registered (selections : list nat) :
  Forall (λ it, is_Some (ENGINES !! engine_id it)) (sampled_items selections).
Proof.
  apply Forall_forall. intros it Hit. unfold sampled_items in Hit.
  apply list_elem_of_omap in Hit as (s & _ & Hs).
  pose proof items3_registered as Hreg. rewrite Forall_forall in Hreg.
  apply Hreg, list_elem_of_lookup. eauto.
Qed.

Lemma sampled_items_cons (s : nat) (selections : list nat) (it : WorkItem) :
  items3 !! (s / 20) = Some it →
  sampled_items (s :: selections) = it :: sampled_items selections.
Proof. intros H. unfold sampled_items. cbn [omap list_omap]. by rewrite H. Qed.

Lemma sampled_items_blocks (selections : list nat) :
  Forall (λ s, s < 60) selections →
  Forall2 (λ s it, items3 !! (s / 20) = Some it) selections
          (sampled_items selections).
Proof.
  induction 1 as [|s sel Hs _ IH]; [constructor|].
  destruct (lookup_lt_is_Some_2 items3 (s / 20)) as [it Hit].
  { change (s / 20 < 3). apply Nat.Div0.div_lt_upper_bound. lia. }
  rewrite (sampled_items_cons s sel it Hit). by constructor.
Qed.

Lemma parse_ref_setup_items (filename : string) (selections : list nat)
    (σ σ' : state) (work_list : list loc) :
  parse_ref_setup filename selections σ = Some (work_list, σ') →
  Forall2 (λ l it, heap σ' !! l = Some (item_dict it)) work_list
          (sampled_items selections).
Proof.
  intros Hrun. apply parse_ref_setup_inv in Hrun
    as (l0 & l1 & l2 & Hnd & _ & _ & _ & -> & (_ & _ & Hlt) & Hwl).
  simpl. induction Hwl as [|s l sel wl Hl _ IH]; [constructor|].
  apply Forall_cons in Hlt as [Hs Hlt].
  destruct (sample_block l0 l1 l2 l (heap σ) s Hnd Hl) as (it & Hit & Hheap).
  rewrite (sampled_items_cons s sel it Hit).
  constructor; [done|by apply IH].
Qed.

Lemma main_block_registered (cfg : config) (sched : list nat)
    (work_list : list loc) (items : list WorkItem) (σ σ' : state)
    (r : exn + list loc) :
  Forall (λ it, is_Some (ENGINES !! engine_id it)) items →
  Forall2 (λ l it, heap σ !! l = Some (item_dict it)) work_list items →
  main_block cfg ENGINES sched work_list σ = Some (r, σ') →
  ∃ results, r = inr results
    ∧ NoDup results
    ∧ Forall2 (λ l it, heap σ' !! l = Some (result_of it)) results items
    ∧ (∀ l d, heap σ !! l = Some d → heap σ' !! l = Some d).
Proof.
  intros Hreg Hwl. unfold main_block, pickle.
  rewrite (mapM_Some_2 _ _ (item_dict <$> items)) by by apply Forall2_fmap_r.
  destruct (executor_map cfg ENGINES sched (item_dict <$> items))
    as [o|] eqn:Ho; [|done].
  apply (executor_map_registered _ _ _ _ Hreg) in Ho as ->.
  destruct (unpickle_all_spec (result_of <$> items) σ)
    as (ls & σ1 & -> & Hrs & Hnd & _ & Hold). intros [= <- <-].
  apply Forall2_fmap_r in Hrs. exists ls. done.
Qed.

Lemma main_block_solo (cfg : config) (work_list : list loc)
    (items : list WorkItem) (σ : state) :
  0 < max_workers cfg →
  Forall2 (λ l it, heap σ !! l = Some (item_dict it)) work_list items →
  is_Some (main_block cfg ENGINES (solo (length items)) work_list σ).
Proof.
  intros Hn Hwl. unfold main_block, pickle.
  rewrite (mapM_Some_2 _ _ (item_dict <$> items)) by by apply Forall2_fmap_r.
  rewrite <- (length_fmap item_dict items), executor_map_solo by done.
  by destruct (all_or_first _).
Qed.

Lemma Forall2_through {A B C : Type} (P : A → C → Prop) (Q : B → C → Prop)
    (xs : list A) (ys : list B) (zs : list C) :
  Forall2 P xs zs → Forall2 Q ys zs →
  Forall2 (λ x y, ∃ z, P x z ∧ Q y z) xs ys.
Proof.
  intros HP. revert ys. induction HP as [|x z xs zs Hx _ IH]; intros ys HQ.
  - apply Forall2_nil_inv_r in HQ as ->. constructor.
  - apply Forall2_cons_inv_r in HQ as (y & ys' & Hy & HQ & ->).
    constructor; [by exists z|by apply IH].
Qed.

(** X10: the script never raises [KeyError].  For every draw of twenty
    positions out of sixty and every pool with at least one worker the run
    completes, and every complete run, under any schedule, hands the caller
    twenty result dicts, all different objects although the work list names
    at most three; the result for position [s] holds the sample entry
    number [s / 20] with "output" set to "_results_". *)
Theorem main_completes (cfg : config) (selections : list nat) (σ : state) :
  is_draw 60 20 selections →
  0 < max_workers cfg →
  is_Some (main cfg (solo 20) selections σ)
  ∧ ∀ sched r σ',
      main cfg sched selections σ = Some (r, σ') →
      ∃ results, r = inr results
        ∧ length results = 20
        ∧ NoDup results
        ∧ Forall2 (λ s l, ∃ it, items3 !! (s / 20) = Some it
                                ∧ heap σ' !! l = Some (result_of it))
                  selections results.
Proof.
  intros Hd Hn. unfold main.
  destruct (parse_ref_setup_draw "ref_setup.yaml" selections σ Hd)
    as [[wl σ1] Hrun].
  rewrite Hrun.
  pose proof (parse_ref_setup_items _ _ _ _ _ Hrun) as Hwl.
  pose proof (sampled_items_registered selections) as Hreg.
  destruct Hd as (Hlen & _ & Hlt).
  pose proof (sampled_items_blocks selections Hlt) as Hblocks.
  assert (length (sampled_items selections) = 20) as Hlen'.
  { apply Forall2_length in Hblocks. congruence. }
  split.
  - rewrite <- Hlen'. by eapply main_block_solo.
  - intros sched r σ' Hmain.
    destruct (main_block_registered _ _ _ _ _ _ _ Hreg Hwl Hmain)
      as (results & -> & Hnd & Hres & _).
    exists results. split; [done|]. split.
    { apply Forall2_length in Hres. congruence. }
    split; [done|].
    by eapply Forall2_through.
Qed.

Lemma main_completes_witness :
  is_Some (main cfg2 (solo 20) draw_even (State ∅ [])).
Proof.
  apply (main_completes cfg2 draw_even (State ∅ [])).
  - compute_done.
  - simpl. lia.
Defined.
